(** * MQClient: the RabbitMQ adapter (MQClient/backends/rabbitmq.py)

    A shallow embedding of the adapter's handles, of its module-level
    operations ([create_pub_queue], [create_sub_queue], [send_message],
    [get_message], [ack_message]) and of the generator [message_generator],
    followed by the properties of the receive path: which messages are
    acked, which are nacked, when the consumer is cancelled, and what the
    caller of the generator observes.

    The broker library (pika) is the environment.  A channel is modelled by
    what the adapter can see of it: the calls made on it, in order, and the
    replies the library gives to the receiving calls ([basic_get] and the
    iterator of [consume]) and to [basic_publish].  The acknowledging calls
    ([basic_ack], [basic_nack]), [basic_qos], [queue_declare],
    [confirm_delivery] and [cancel] are recorded on the channel.
    [logging.warn] writes to the process log only and is not part of the
    state. *)

From Stdlib Require Import ZArith List String Bool Lia.
Import ListNotations.
Local Open Scope Z_scope.
Local Open Scope string_scope.
Local Open Scope list_scope.

(** ** Python values *)

Definition bytes := list Byte.byte.

(** Exceptions, as far as the adapter tells them apart: [except Exception]
    catches every class below except [GeneratorExit] and the classes that
    derive from [BaseException] only ([KeyboardInterrupt], [SystemExit]). *)
Inductive exn : Type :=
| RuntimeError (msg : string)
| AttributeError (msg : string)
| StopIteration
| GeneratorExit
| OtherException (cls : string)
| OtherBaseException (cls : string).

Definition isinstance_Exception (e : exn) : bool :=
  match e with
  | GeneratorExit | OtherBaseException _ => false
  | RuntimeError _ | AttributeError _ | StopIteration | OtherException _ => true
  end.

Definition is_StopIteration (e : exn) : bool :=
  match e with StopIteration => true | _ => false end.

(** The outcome of a call: it returns a value or raises. *)
Inductive result (A : Type) : Type :=
| Return (a : A)
| Raise (e : exn).
Arguments Return {A} a.
Arguments Raise {A} e.

(** ** backend_interface.Message *)

Definition MessageID := Z.

Record Message : Type := mkMessage { msg_id : MessageID; data : bytes }.

(** ** The broker library, as the adapter sees it *)

(** The method frame of a delivery carries the delivery tag. *)
Record Method : Type := mkMethod { delivery_tag : Z }.

Definition BasicProperties := list (string * string).

(** An item [(method_frame, header_frame, body)] handed out by [basic_get]
    and by the iterator of [consume]; [(None, None, None)] stands for
    "nothing arrived". *)
Record Item : Type := mkItem {
  method_frame : option Method;
  header_frame : option BasicProperties;
  body : bytes
}.

Definition no_item : Item :=
  {| method_frame := None; header_frame := None; body := [] |}.

(** One reply of the library to a receiving call: an item, or an error
    raised by the library. *)
Inductive reply : Type :=
| Gives (it : Item)
| Fails (e : exn).

(** The calls the adapter makes on a channel. *)
Inductive call : Type :=
| QueueDeclare (queue : string) (durable : bool)
| ConfirmDelivery
| BasicQos (prefetch_count : Z) (global_qos : bool)
| BasicPublish (exchange routing_key : string) (body : bytes)
| BasicGet (queue : string)
| BasicAck (delivery_tag : Z)
| BasicNack (delivery_tag : Z)
| Consume (queue : string) (inactivity_timeout : Z)
| Cancel.

Record Channel : Type := mkChannel {
  calls : list call;            (* calls made so far, oldest first *)
  inbox : list reply;           (* replies to basic_get / consume, in order *)
  publish_error : option exn    (* what basic_publish raises, if anything *)
}.

Record Connection : Type := mkConnection {
  parameters : string;
  is_closed : bool;
  is_closing : bool
}.

(** What the library does for a client that connects: the connection
    attempt may fail, and the channel it opens has its replies ready. *)
Record Pika : Type := mkPika {
  connect_error : option exn;
  deliveries : list reply;
  publish_reply : option exn
}.

Definition record (c : call) (ch : Channel) : Channel :=
  {| calls := calls ch ++ [c];
     inbox := inbox ch;
     publish_error := publish_error ch |}.

Definition queue_declare (queue : string) (durable : bool) (ch : Channel) : Channel :=
  record (QueueDeclare queue durable) ch.

Definition confirm_delivery (ch : Channel) : Channel :=
  record ConfirmDelivery ch.

Definition basic_qos (prefetch_count : Z) (global_qos : bool) (ch : Channel) : Channel :=
  record (BasicQos prefetch_count global_qos) ch.

Definition basic_ack (tag : Z) (ch : Channel) : Channel :=
  record (BasicAck tag) ch.

Definition basic_nack (tag : Z) (ch : Channel) : Channel :=
  record (BasicNack tag) ch.

Definition cancel (ch : Channel) : Channel :=
  record Cancel ch.

Definition consume (queue : string) (inactivity_timeout : Z) (ch : Channel) : Channel :=
  record (Consume queue inactivity_timeout) ch.

Definition basic_publish (exchange routing_key : string) (msg : bytes)
    (ch : Channel) : result unit * Channel :=
  let ch' := record (BasicPublish exchange routing_key msg) ch in
  match publish_error ch with
  | None => (Return tt, ch')
  | Some e => (Raise e, ch')
  end.

(** Takes the next reply off the channel; [None] when there is none left. *)
Definition take_reply (ch : Channel) : option reply * Channel :=
  match inbox ch with
  | [] => (None, ch)
  | r :: rest =>
      (Some r, {| calls := calls ch; inbox := rest;
                  publish_error := publish_error ch |})
  end.

(** [basic_get] on an empty queue gives [(None, None, None)]. *)
Definition basic_get (queue : string) (ch : Channel) : result Item * Channel :=
  let (r, ch') := take_reply (record (BasicGet queue) ch) in
  match r with
  | None => (Return no_item, ch')
  | Some (Gives it) => (Return it, ch')
  | Some (Fails e) => (Raise e, ch')
  end.

(** ** Handles: class RabbitMQ and its subclasses *)

Record RabbitMQ : Type := mkRabbitMQ {
  address : string;
  queue : string;
  connection : option Connection;
  channel : option Channel;
  consumer_id : option string;
  prefetch : Z
}.

Definition RabbitMQPub := RabbitMQ.

Definition RabbitMQSub := RabbitMQ.

Definition set_channel (q : RabbitMQ) (ch : option Channel) : RabbitMQ :=
  {| address := address q; queue := queue q; connection := connection q;
     channel := ch; consumer_id := consumer_id q; prefetch := prefetch q |}.

Definition set_prefetch (q : RabbitMQ) (p : Z) : RabbitMQ :=
  {| address := address q; queue := queue q; connection := connection q;
     channel := channel q; consumer_id := consumer_id q; prefetch := p |}.

(** [RabbitMQ.__init__] *)
Definition RabbitMQ_init (addr name : string) : RabbitMQ :=
  {| address := addr; queue := name; connection := None;
     channel := None; consumer_id := None; prefetch := 1 |}.

(** [RabbitMQ.connect] *)
Definition RabbitMQ_connect (pika : Pika) (q : RabbitMQ) : result unit * RabbitMQ :=
  match connect_error pika with
  | Some e => (Raise e, q)
  | None =>
      (Return tt,
       {| address := address q; queue := queue q;
          connection := Some {| parameters := address q;
                                is_closed := false; is_closing := false |};
          channel := Some {| calls := []; inbox := deliveries pika;
                             publish_error := publish_reply pika |};
          consumer_id := consumer_id q; prefetch := prefetch q |})
  end.

(** [RabbitMQ.close]: closes the connection when there is an open one; the
    [channel] attribute is left as it is. *)
Definition close (q : RabbitMQ) : RabbitMQ :=
  match connection q with
  | Some c =>
      if negb (is_closed c) && negb (is_closing c) then
        {| address := address q; queue := queue q;
           connection := Some {| parameters := parameters c;
                                 is_closed := true; is_closing := false |};
           channel := channel q; consumer_id := consumer_id q;
           prefetch := prefetch q |}
      else q
  | None => q
  end.

(** A method call [queue.channel.m(...)] that returns nothing: with the
    attribute unset it is an [AttributeError] on [None]. *)
Definition on_channel (f : Channel -> Channel) (q : RabbitMQ) : result unit * RabbitMQ :=
  match channel q with
  | Some ch => (Return tt, set_channel q (Some (f ch)))
  | None => (Raise (AttributeError "'NoneType' object has no attribute"), q)
  end.

(** [RabbitMQPub.connect] *)
Definition RabbitMQPub_connect (pika : Pika) (q : RabbitMQPub) : result unit * RabbitMQPub :=
  match RabbitMQ_connect pika q with
  | (Raise e, q1) => (Raise e, q1)
  | (Return _, q1) =>
      match on_channel (queue_declare (queue q1) false) q1 with
      | (Raise e, q2) => (Raise e, q2)
      | (Return _, q2) => on_channel confirm_delivery q2
      end
  end.

(** [RabbitMQSub.__init__] *)
Definition RabbitMQSub_init (addr name : string) : RabbitMQSub :=
  let q := RabbitMQ_init addr name in
  {| address := address q; queue := queue q;
     connection := connection q; channel := channel q;
     consumer_id := None; prefetch := 1 |}.

(** [RabbitMQSub.connect] *)
Definition RabbitMQSub_connect (pika : Pika) (q : RabbitMQSub) : result unit * RabbitMQSub :=
  match RabbitMQ_connect pika q with
  | (Raise e, q1) => (Raise e, q1)
  | (Return _, q1) => on_channel (basic_qos (prefetch q1) true) q1
  end.

(** ** Interface methods *)

Definition create_pub_queue (pika : Pika) (addr name : string) : result RabbitMQPub :=
  let q := RabbitMQ_init addr name in
  match RabbitMQPub_connect pika q with
  | (Raise e, _) => Raise e
  | (Return _, q') => Return q'
  end.

Definition default_prefetch : Z := 1.

Definition create_sub_queue (pika : Pika) (addr name : string)
    (prefetch_arg : option Z) : result RabbitMQSub :=
  let p := match prefetch_arg with Some p => p | None => default_prefetch end in
  let q := RabbitMQSub_init addr name in
  let q := set_prefetch q p in
  match RabbitMQSub_connect pika q with
  | (Raise e, _) => Raise e
  | (Return _, q') => Return q'
  end.

Definition not_connected : exn := RuntimeError "queue is not connected".

Definition send_message (q : RabbitMQPub) (msg : bytes) : result unit * RabbitMQPub :=
  match channel q with
  | None => (Raise not_connected, q)
  | Some ch =>
      let (r, ch') := basic_publish "" (queue q) msg ch in
      (r, set_channel q (Some ch'))
  end.

Definition get_message (q : RabbitMQSub) : result (option Message) * RabbitMQSub :=
  match channel q with
  | None => (Raise not_connected, q)
  | Some ch =>
      let (r, ch') := basic_get (queue q) ch in
      let q' := set_channel q (Some ch') in
      match r with
      | Raise e => (Raise e, q')
      | Return it =>
          match method_frame it with
          | Some m => (Return (Some (mkMessage (delivery_tag m) (body it))), q')
          | None => (Return None, q')
          end
      end
  end.

Definition ack_message (q : RabbitMQSub) (msg_id : MessageID) : result unit * RabbitMQSub :=
  match channel q with
  | None => (Raise not_connected, q)
  | Some ch => (Return tt, set_channel q (Some (basic_ack msg_id ch)))
  end.

(** ** message_generator *)

(** Where the generator function stands: not started, suspended at its
    [yield] with the method frame of the message it handed out, or
    finished. *)
Inductive frame : Type :=
| Created
| AtYield (method_frame : Method)
| Finished.

(** The generator object: the arguments it was called with and its frame.
    The [queue] argument is the handle the steps below are given. *)
Record generator : Type := mkGenerator {
  timeout : Z;
  auto_ack : bool;
  propagate_error : bool;
  gen_frame : frame
}.

Definition default_auto_ack : bool := true.

Definition default_propagate_error : bool := true.

(** Calling the generator function runs none of its body.  A keyword
    argument the caller leaves out is [None] here. *)
Definition message_generator (timeout : Z) (auto_ack propagate_error : option bool)
    : generator :=
  {| timeout := timeout;
     auto_ack := match auto_ack with Some b => b | None => default_auto_ack end;
     propagate_error :=
       match propagate_error with Some b => b | None => default_propagate_error end;
     gen_frame := Created |}.

Definition set_frame (g : generator) (f : frame) : generator :=
  {| timeout := timeout g; auto_ack := auto_ack g;
     propagate_error := propagate_error g; gen_frame := f |}.

(** An exception that leaves the generator's body reaches the caller as it
    is, except [StopIteration], which Python turns into a [RuntimeError]. *)
Definition leaves_body (e : exn) : exn :=
  if is_StopIteration e then RuntimeError "generator raised StopIteration" else e.

(** The [finally] clause, then the end of the generator: [how] is the
    exception on its way out, or [None] when the body ran to its end. *)
Definition finally_cancel (how : option exn) (g : generator) (q : RabbitMQSub)
    : result Message * generator * RabbitMQSub :=
  match on_channel cancel q with
  | (Raise e, q') => (Raise (leaves_body e), set_frame g Finished, q')
  | (Return _, q') =>
      match how with
      | Some e => (Raise (leaves_body e), set_frame g Finished, q')
      | None => (Raise StopIteration, set_frame g Finished, q')
      end
  end.

(** The [for] statement asks the iterator of [consume] for its next item
    and runs the body up to the [yield]. *)
Definition next_item (g : generator) (q : RabbitMQSub)
    : result Message * generator * RabbitMQSub :=
  match channel q with
  | None =>
      finally_cancel (Some (AttributeError "'NoneType' object has no attribute")) g q
  | Some ch =>
      let (r, ch') := take_reply ch in
      let q' := set_channel q (Some ch') in
      match r with
      | None => finally_cancel None g q'
      | Some (Fails e) =>
          if is_StopIteration e then finally_cancel None g q'
          else finally_cancel (Some e) g q'
      | Some (Gives it) =>
          match method_frame it with
          | None => finally_cancel None g q'          (* break: out of messages *)
          | Some m =>
              (Return (mkMessage (delivery_tag m) (body it)),
               set_frame g (AtYield m), q')
          end
      end
  end.

(** [next(gen)] *)
Definition gen_next (g : generator) (q : RabbitMQSub)
    : result Message * generator * RabbitMQSub :=
  match gen_frame g with
  | Created =>
      match channel q with
      | None => (Raise not_connected, set_frame g Finished, q)
      | Some ch =>
          next_item g (set_channel q (Some (consume (queue q) (timeout g) ch)))
      end
  | AtYield m =>
      if auto_ack g then
        match on_channel (basic_ack (delivery_tag m)) q with
        | (Raise e, q') => finally_cancel (Some e) g q'
        | (Return _, q') => next_item g q'
        end
      else next_item g q
  | Finished => (Raise StopIteration, g, q)
  end.

(** [gen.throw(e)] *)
Definition gen_throw (e : exn) (g : generator) (q : RabbitMQSub)
    : result Message * generator * RabbitMQSub :=
  match gen_frame g with
  | Created => (Raise (leaves_body e), set_frame g Finished, q)
  | AtYield m =>
      if isinstance_Exception e then
        match on_channel (basic_nack (delivery_tag m)) q with
        | (Raise e', q') => finally_cancel (Some e') g q'
        | (Return _, q') =>
            if propagate_error g then finally_cancel (Some e) g q'
            else next_item g q'
        end
      else finally_cancel (Some e) g q
  | Finished => (Raise e, g, q)
  end.

(** [gen.close()]: [GeneratorExit] is raised at the [yield]; the body does
    not catch it, and [close] returns once it has left the body. *)
Definition gen_close (g : generator) (q : RabbitMQSub)
    : result unit * generator * RabbitMQSub :=
  match gen_frame g with
  | Created => (Return tt, set_frame g Finished, q)
  | AtYield m =>
      match finally_cancel (Some GeneratorExit) g q with
      | (Raise GeneratorExit, g', q') => (Return tt, g', q')
      | (Raise StopIteration, g', q') => (Return tt, g', q')
      | (Raise e, g', q') => (Raise e, g', q')
      | (Return _, g', q') =>
          (Raise (RuntimeError "generator ignored GeneratorExit"), g', q')
      end
  | Finished => (Return tt, g, q)
  end.

(** ** Runs: a caller driving the generator *)

Inductive action : Type :=
| next
| throw (e : exn)
| close_gen.

(** What the caller got back from one call on the generator. *)
Inductive outcome : Type :=
| Yielded (m : Message)
| Raised (e : exn)
| Closed.

Definition observe (r : result Message) : outcome :=
  match r with Return m => Yielded m | Raise e => Raised e end.

Definition step (a : action) (g : generator) (q : RabbitMQSub)
    : outcome * generator * RabbitMQSub :=
  match a with
  | next => let '(r, g', q') := gen_next g q in (observe r, g', q')
  | throw e => let '(r, g', q') := gen_throw e g q in (observe r, g', q')
  | close_gen =>
      match gen_close g q with
      | (Return _, g', q') => (Closed, g', q')
      | (Raise e, g', q') => (Raised e, g', q')
      end
  end.

(** The caller makes the calls of [script] one after the other; the result
    pairs each call with its outcome. *)
Fixpoint run (script : list action) (g : generator) (q : RabbitMQSub)
    : list (action * outcome) * generator * RabbitMQSub :=
  match script with
  | [] => ([], g, q)
  | a :: script' =>
      let '(o, g1, q1) := step a g q in
      let '(tr, g2, q2) := run script' g1 q1 in
      ((a, o) :: tr, g2, q2)
  end.

(** The calls on the handle's channel ([] when there is no channel). *)
Definition calls_of (q : RabbitMQ) : list call :=
  match channel q with Some ch => calls ch | None => [] end.

Definition acks (cs : list call) : list Z :=
  flat_map (fun c => match c with BasicAck t => [t] | _ => [] end) cs.

Definition nacks (cs : list call) : list Z :=
  flat_map (fun c => match c with BasicNack t => [t] | _ => [] end) cs.

Definition cancels (cs : list call) : nat :=
  List.length (filter (fun c => match c with Cancel => true | _ => false end) cs).

Definition yielded (tr : list (action * outcome)) : list Message :=
  flat_map (fun ao => match snd ao with Yielded m => [m] | _ => [] end) tr.

(** ** What a run shows: calls issued, messages answered *)

(** A delivery with its method frame, as the broker hands it out. *)
Definition deliver (m : Method) (b : bytes) : reply :=
  Gives {| method_frame := Some m; header_frame := None; body := b |}.

(** The delivery tag of the message in flight: handed to the caller and
    neither acked nor nacked yet. *)
Definition inflight (g : generator) : option Z :=
  match gen_frame g with
  | AtYield m => Some (delivery_tag m)
  | Created | Finished => None
  end.

(** The message in flight once the caller has been given [o]. *)
Definition in_flight_after (o : outcome) : option Z :=
  match o with
  | Yielded m => Some (msg_id m)
  | Raised _ | Closed => None
  end.

(** The loop either yields or leaves through the [finally] clause. *)
Definition on_exit (o : outcome) : list call :=
  match o with
  | Yielded _ => []
  | Raised _ | Closed => [Cancel]
  end.

(** The calls one step makes on a connected handle, given its outcome. *)
Definition issued (g : generator) (q : RabbitMQSub) (a : action) (o : outcome)
    : list call :=
  match gen_frame g, a with
  | Created, next =>
      match channel q with
      | Some _ => Consume (queue q) (timeout g) :: on_exit o
      | None => []
      end
  | AtYield m, next =>
      (if auto_ack g then [BasicAck (delivery_tag m)] else []) ++ on_exit o
  | AtYield m, throw e =>
      if isinstance_Exception e then
        BasicNack (delivery_tag m) ::
          (if propagate_error g then [Cancel] else on_exit o)
      else [Cancel]
  | AtYield m, close_gen => [Cancel]
  | _, _ => []
  end.

(** A suspended generator was started on a connected handle, and nothing
    in the adapter unsets the channel. *)
Definition attached (g : generator) (q : RabbitMQSub) : Prop :=
  match gen_frame g with
  | AtYield _ => channel q <> None
  | Created | Finished => True
  end.

(** A step changes the frame of the generator, never its arguments. *)
Definition same_arguments (g g' : generator) : Prop :=
  timeout g' = timeout g /\ auto_ack g' = auto_ack g /\
  propagate_error g' = propagate_error g.

(** A caller answers the message in flight with its next call on the
    generator: [next] is a return from the [yield], [throw e] raises [e] at
    the [yield], [close_gen] raises [GeneratorExit] there. *)
Definition returns_normally (a : action) : bool :=
  match a with next => true | throw _ | close_gen => false end.

Definition raises_exception (a : action) : bool :=
  match a with throw e => isinstance_Exception e | next | close_gen => false end.

(** The delivery tags of the messages handed out in [tr] whose answer
    satisfies [which], in order; [t0] is the message in flight when [tr]
    starts. *)
Fixpoint answered (which : action -> bool) (t0 : option Z)
    (tr : list (action * outcome)) : list Z :=
  match tr with
  | [] => []
  | (a, o) :: tr' =>
      match t0 with
      | Some t => if which a then [t] else []
      | None => []
      end ++ answered which (in_flight_after o) tr'
  end.

Definition inbox_of (q : RabbitMQ) : list reply :=
  match channel q with Some ch => inbox ch | None => [] end.

Definition message_of (it : Item) : option Message :=
  match method_frame it with
  | Some m => Some (mkMessage (delivery_tag m) (body it))
  | None => None
  end.

(** The messages at the head of the stream, up to the first reply that is
    not a delivery. *)
Fixpoint leading (rs : list reply) : list Message :=
  match rs with
  | Gives it :: rest =>
      match message_of it with
      | Some m => m :: leading rest
      | None => []
      end
  | Fails _ :: _ | [] => []
  end.

(** The three parts of the result of a run. *)
Definition trace_of (r : list (action * outcome) * generator * RabbitMQSub) :=
  fst (fst r).

Definition generator_of (r : list (action * outcome) * generator * RabbitMQSub) :=
  snd (fst r).

Definition handle_of (r : list (action * outcome) * generator * RabbitMQSub) :=
  snd r.

Definition tag_list (t : option Z) : list Z :=
  match t with Some t => [t] | None => [] end.

(** ** Sample brokers and handles *)

(** An open subscription whose broker delivers three messages and then
    reports inactivity. *)
Definition three_then_timeout : Pika :=
  {| connect_error := None;
     deliveries := [deliver (mkMethod 0) []; deliver (mkMethod 10) [];
                    deliver (mkMethod 20) []; Gives no_item];
     publish_reply := None |}.

Definition sub_of (pika : Pika) : RabbitMQSub :=
  match create_sub_queue pika "localhost" "queue" None with
  | Return q => q
  | Raise _ => RabbitMQSub_init "localhost" "queue"
  end.

(** The channel [ch] after the calls [new], with [rest] left to deliver. *)
Definition with_calls (ch : Channel) (new : list call) (rest : list reply) : Channel :=
  {| calls := calls ch ++ new; inbox := rest; publish_error := publish_error ch |}.

(** How many consumers were started. *)
Definition consumes (cs : list call) : nat :=
  List.length (filter (fun c => match c with Consume _ _ => true | _ => false end) cs).

(** 1 while the generator is suspended inside the [try] block, 0 before it
    has entered it and after it has left it. *)
Definition suspended (g : generator) : nat :=
  match gen_frame g with
  | AtYield _ => 1
  | Created | Finished => 0
  end.

(** A delivery of the broker: a method frame and a body. *)
Definition delivery := (Method * bytes)%type.

Definition deliveries_of (ds : list delivery) : list reply :=
  map (fun d => deliver (fst d) (snd d)) ds.

Definition message_at (d : delivery) : Message :=
  mkMessage (delivery_tag (fst d)) (snd d).

Definition tag_at (d : delivery) : Z := delivery_tag (fst d).

(** The trace of a caller that calls [next] and is handed each delivery of
    [ds] in turn. *)
Definition returned (ds : list delivery) : list (action * outcome) :=
  map (fun d => (next, Yielded (message_at d))) ds.

(** The ack that precedes the loop's next round on [next], if any. *)
Definition acked_first (g : generator) (m : Method) : list call :=
  if auto_ack g then [BasicAck (delivery_tag m)] else [].

(** A subscription whose stream fails after one delivery. *)
Definition one_then_error : Pika :=
  {| connect_error := None;
     deliveries := [deliver (mkMethod 0) []; Fails (OtherException "AMQPError")];
     publish_reply := None |}.

(** A publisher's connection on which the library accepts messages. *)
Definition accepting : Pika :=
  {| connect_error := None; deliveries := []; publish_reply := None |}.

Definition pub_of (pika : Pika) : RabbitMQPub :=
  match create_pub_queue pika "localhost" "queue" with
  | Return q => q
  | Raise _ => RabbitMQ_init "localhost" "queue"
  end.

(** The handle's connection has been closed. *)
Definition closed_handle (q : RabbitMQ) : bool :=
  match connection q with
  | Some c => is_closed c
  | None => false
  end.

(** ** Callers of the interface methods *)

(** A caller that calls [get_message] [n] times in a row and keeps what
    each call gave. *)
Fixpoint get_messages (n : nat) (q : RabbitMQSub)
    : list (result (option Message)) * RabbitMQSub :=
  match n with
  | O => ([], q)
  | S n' =>
      let (r, q1) := get_message q in
      let (rs, q2) := get_messages n' q1 in
      (r :: rs, q2)
  end.

(** A caller that sends the messages of [msgs] one after the other; the
    first exception ends the loop. *)
Fixpoint send_messages (msgs : list bytes) (q : RabbitMQPub)
    : result unit * RabbitMQPub :=
  match msgs with
  | [] => (Return tt, q)
  | msg :: msgs' =>
      match send_message q msg with
      | (Return _, q1) => send_messages msgs' q1
      | (Raise e, q1) => (Raise e, q1)
      end
  end.

(** A caller that acks the ids of [ids] one after the other; the first
    exception ends the loop. *)
Fixpoint ack_messages (ids : list MessageID) (q : RabbitMQSub)
    : result unit * RabbitMQSub :=
  match ids with
  | [] => (Return tt, q)
  | id :: ids' =>
      match ack_message q id with
      | (Return _, q1) => ack_messages ids' q1
      | (Raise e, q1) => (Raise e, q1)
      end
  end.

(** The acks the generator issues for the deliveries it is returned from. *)
Definition acks_for (g : generator) (ds : list delivery) : list call :=
  flat_map (fun d => acked_first g (fst d)) ds.

(** The calls [next] makes before the loop asks for its next item. *)
Definition on_entry (g : generator) (q : RabbitMQSub) : list call :=
  match gen_frame g with
  | Created => [Consume (queue q) (timeout g)]
  | AtYield m => acked_first g m
  | Finished => []
  end.

(** A subscription whose broker has nothing to deliver. *)
Definition empty_queue : Pika :=
  {| connect_error := None; deliveries := []; publish_reply := None |}.

(** ** A caller that raises at what its loop is handed *)

(** The messages a [for] loop over the generator is handed: the values of
    the [next] calls.  The value of a [throw] call does not reach the body
    of the loop. *)
Definition seen_by_loop (tr : list (action * outcome)) : list Message :=
  yielded (filter (fun ao => returns_normally (fst ao)) tr).

(** A round of such a caller: it raises at the message its loop was handed
    ([throw]), and the loop asks for the next message ([next]).  A round
    takes two deliveries off the stream. *)
Definition round := (delivery * delivery)%type.

Definition rounds_stream (ps : list round) : list delivery :=
  flat_map (fun p => [fst p; snd p]) ps.

Definition rounds_script (e : exn) (ps : list round) : list action :=
  flat_map (fun _ => [throw e; next]) ps.

Definition rounds_trace (e : exn) (ps : list round) : list (action * outcome) :=
  flat_map (fun p => [(throw e, Yielded (message_at (fst p)));
                      (next, Yielded (message_at (snd p)))]) ps.

(** The calls of the rounds [ps], begun with the message of tag [t] in
    flight. *)
Fixpoint rounds_calls (t : Z) (ps : list round) : list call :=
  match ps with
  | [] => []
  | p :: ps' =>
      BasicNack t :: BasicAck (tag_at (fst p)) ::
        rounds_calls (tag_at (snd p)) ps'
  end.

(** The tags a caller raised at in the rounds [ps], begun with [t] in
    flight: [t], then the second delivery of every round but the last. *)
Fixpoint raised_at (t : Z) (ps : list round) : list Z :=
  match ps with
  | [] => []
  | p :: ps' => t :: raised_at (tag_at (snd p)) ps'
  end.

(** A subscription whose broker delivers five messages and then reports
    inactivity. *)
Definition five_then_timeout : Pika :=
  {| connect_error := None;
     deliveries := [deliver (mkMethod 0) []; deliver (mkMethod 10) [];
                    deliver (mkMethod 20) []; deliver (mkMethod 30) [];
                    deliver (mkMethod 40) []; Gives no_item];
     publish_reply := None |}.

(** * Properties *)

(** ** One call on the generator *)

Ltac case_split_in H :=
  repeat match type of H with
  | context [match ?x with _ => _ end] =>
      lazymatch x with
      | context [match _ with _ => _ end] => fail
      | _ => destruct x eqn:?; cbn in H
      end
  end.

Lemma step_issued (a : action) (g : generator) (q : RabbitMQSub) :
  attached g q ->
  forall o g1 q1, step a g q = (o, g1, q1) ->
    calls_of q1 = calls_of q ++ issued g q a o
    /\ inflight g1 = in_flight_after o
    /\ attached g1 q1
    /\ same_arguments g g1
    /\ queue q1 = queue q
    /\ (gen_frame g1 = Created -> False).
Proof.
  intros Hat o g1 q1.
  unfold step, gen_next, gen_throw, gen_close, next_item, finally_cancel,
    on_channel, take_reply, attached, issued, inflight, calls_of,
    same_arguments, set_channel, set_frame, consume, cancel, basic_ack,
    basic_nack, record in *.
  destruct a; destruct (gen_frame g) eqn:Hf; destruct (channel q) eqn:Hc;
    try (exfalso; apply Hat; reflexivity).
  all: cbn; intros H; case_split_in H.
  all: inversion H; subst; clear H; cbn; rewrite ?Hc, ?Hf; cbn.
  all: repeat split; try congruence; try discriminate.
  all: repeat rewrite <- app_assoc; cbn; rewrite ?app_nil_r; try reflexivity.
Qed.

(** ** The acks and nacks of a run *)

Lemma acks_app (xs ys : list call) : acks (xs ++ ys) = acks xs ++ acks ys.
Proof. unfold acks. apply flat_map_app. Qed.

Lemma nacks_app (xs ys : list call) : nacks (xs ++ ys) = nacks xs ++ nacks ys.
Proof. unfold nacks. apply flat_map_app. Qed.

Lemma cancels_app (xs ys : list call) : cancels (xs ++ ys) = (cancels xs + cancels ys)%nat.
Proof. unfold cancels. rewrite filter_app, length_app. reflexivity. Qed.

Lemma acks_on_exit (o : outcome) : acks (on_exit o) = [].
Proof. destruct o; reflexivity. Qed.

Lemma nacks_on_exit (o : outcome) : nacks (on_exit o) = [].
Proof. destruct o; reflexivity. Qed.

Lemma acks_issued (g : generator) (q : RabbitMQSub) (a : action) (o : outcome) :
  auto_ack g = true ->
  acks (issued g q a o) = answered returns_normally (inflight g) [(a, o)].
Proof.
  intros Hack. unfold issued, inflight. cbn.
  destruct (gen_frame g), a; cbn; rewrite ?Hack; cbn;
    repeat match goal with
    | |- context [match ?x with _ => _ end] => destruct x; cbn
    end;
    rewrite ?acks_on_exit; reflexivity.
Qed.

Lemma acks_issued_manual (g : generator) (q : RabbitMQSub) (a : action) (o : outcome) :
  auto_ack g = false -> acks (issued g q a o) = [].
Proof.
  intros Hack. unfold issued.
  destruct (gen_frame g), a; cbn; rewrite ?Hack; cbn;
    repeat match goal with
    | |- context [match ?x with _ => _ end] => destruct x; cbn
    end;
    rewrite ?acks_on_exit; reflexivity.
Qed.

Lemma nacks_issued (g : generator) (q : RabbitMQSub) (a : action) (o : outcome) :
  nacks (issued g q a o) = answered raises_exception (inflight g) [(a, o)].
Proof.
  unfold issued, inflight. cbn.
  destruct (gen_frame g), a; cbn;
    repeat match goal with
    | |- context [match ?x with _ => _ end] => destruct x; cbn
    end;
    rewrite ?nacks_app, ?nacks_on_exit; reflexivity.
Qed.

Lemma answered_cons (which : action -> bool) (t0 : option Z) (a : action)
    (o : outcome) (tr : list (action * outcome)) :
  answered which t0 ((a, o) :: tr) =
  answered which t0 [(a, o)] ++ answered which (in_flight_after o) tr.
Proof. cbn. rewrite app_nil_r. reflexivity. Qed.

(** Unfolding one call of a run. *)
Lemma run_cons (a : action) (script : list action) (g : generator) (q : RabbitMQSub) :
  run (a :: script) g q =
  let '(o, g1, q1) := step a g q in
  let '(tr, g2, q2) := run script g1 q1 in
  ((a, o) :: tr, g2, q2).
Proof. reflexivity. Qed.

Ltac run_step Hrun Hat :=
  rewrite run_cons in Hrun;
  match type of Hrun with
  | context [step ?a ?g ?q] =>
      let o := fresh "o" in let g1 := fresh "g1" in let q1 := fresh "q1" in
      let Hs := fresh "Hstep" in
      destruct (step a g q) as [[o g1] q1] eqn:Hs;
      match type of Hrun with
      | context [run ?s g1 q1] =>
          let tr := fresh "tr" in let g2 := fresh "g2" in let q2 := fresh "q2" in
          let Hr := fresh "Hrest" in
          destruct (run s g1 q1) as [[tr g2] q2] eqn:Hr
      end;
      inversion Hrun; subst; clear Hrun;
      let Hc := fresh "Hcalls" in let Hi := fresh "Hinfl" in
      let Ha := fresh "Hatt" in let Hsame := fresh "Hsame" in
      let Hq := fresh "Hqueue" in let Hnc := fresh "Hstarted" in
      destruct (step_issued a g q Hat _ _ _ Hs) as (Hc & Hi & Ha & Hsame & Hq & Hnc)
  end.

(** The acks of a run with [auto_ack] on are the messages the caller
    returned from, nothing else. *)
Lemma run_acks (script : list action) :
  forall g q, attached g q -> auto_ack g = true ->
  forall tr g' q', run script g q = (tr, g', q') ->
    acks (calls_of q') =
    acks (calls_of q) ++ answered returns_normally (inflight g) tr.
Proof.
  induction script as [|a script IH]; intros g q Hat Hack tr g' q' Hrun.
  - cbn in Hrun. inversion Hrun; subst. cbn. rewrite app_nil_r. reflexivity.
  - run_step Hrun Hat.
    destruct Hsame as (_ & Hack1 & _).
    rewrite (IH g1 q1 Hatt (eq_trans Hack1 Hack) _ _ _ Hrest).
    rewrite Hcalls, acks_app, (acks_issued g q a o Hack), Hinfl.
    rewrite (answered_cons _ _ a o tr0), app_assoc. reflexivity.
Qed.

(** With [auto_ack] off the generator acks nothing. *)
Lemma run_acks_manual (script : list action) :
  forall g q, attached g q -> auto_ack g = false ->
  forall tr g' q', run script g q = (tr, g', q') ->
    acks (calls_of q') = acks (calls_of q).
Proof.
  induction script as [|a script IH]; intros g q Hat Hack tr g' q' Hrun.
  - cbn in Hrun. inversion Hrun; subst. reflexivity.
  - run_step Hrun Hat.
    destruct Hsame as (_ & Hack1 & _).
    rewrite (IH g1 q1 Hatt (eq_trans Hack1 Hack) _ _ _ Hrest).
    rewrite Hcalls, acks_app, (acks_issued_manual g q a o Hack), app_nil_r.
    reflexivity.
Qed.

(** The nacks of a run are the messages at which the caller raised, under
    every setting of [auto_ack] and [propagate_error]. *)
Lemma run_nacks (script : list action) :
  forall g q, attached g q ->
  forall tr g' q', run script g q = (tr, g', q') ->
    nacks (calls_of q') =
    nacks (calls_of q) ++ answered raises_exception (inflight g) tr.
Proof.
  induction script as [|a script IH]; intros g q Hat tr g' q' Hrun.
  - cbn in Hrun. inversion Hrun; subst. cbn. rewrite app_nil_r. reflexivity.
  - run_step Hrun Hat.
    rewrite (IH g1 q1 Hatt _ _ _ Hrest).
    rewrite Hcalls, nacks_app, (nacks_issued g q a o), Hinfl.
    rewrite (answered_cons _ _ a o tr0), app_assoc. reflexivity.
Qed.

Lemma run_eta (script : list action) (g : generator) (q : RabbitMQSub) :
  run script g q =
  (trace_of (run script g q), generator_of (run script g q),
   handle_of (run script g q)).
Proof. destruct (run script g q) as [[tr g'] q']. reflexivity. Qed.

Lemma attached_Created (g : generator) (q : RabbitMQSub) :
  gen_frame g = Created -> attached g q.
Proof. unfold attached. intros ->. exact I. Qed.

Lemma inflight_Created (g : generator) :
  gen_frame g = Created -> inflight g = None.
Proof. unfold inflight. intros ->. reflexivity. Qed.

Lemma inflight_Finished (g : generator) :
  gen_frame g = Finished -> inflight g = None.
Proof. unfold inflight. intros ->. reflexivity. Qed.

Lemma yielded_cons (a : action) (o : outcome) (tr : list (action * outcome)) :
  map msg_id (yielded ((a, o) :: tr)) =
  tag_list (in_flight_after o) ++ map msg_id (yielded tr).
Proof. unfold yielded. cbn. destruct o; reflexivity. Qed.

(** When the caller only ever calls [next] and the generator has come to
    its end, every message handed out was returned from. *)
Lemma run_all_next (script : list action) :
  forall g q, attached g q -> Forall (fun a => a = next) script ->
  forall tr g' q', run script g q = (tr, g', q') -> inflight g' = None ->
    answered returns_normally (inflight g) tr =
      tag_list (inflight g) ++ map msg_id (yielded tr)
    /\ answered raises_exception (inflight g) tr = [].
Proof.
  induction script as [|a script IH]; intros g q Hat Hall tr g' q' Hrun Hend.
  - cbn in Hrun. inversion Hrun; subst. rewrite Hend. split; reflexivity.
  - inversion Hall as [|? ? Ha Hall']; subst.
    run_step Hrun Hat.
    destruct (IH g1 q1 Hatt Hall' _ _ _ Hrest Hend) as [IHa IHn].
    rewrite Hinfl in IHa, IHn.
    split.
    + rewrite answered_cons, IHa, yielded_cons.
      cbn. destruct (inflight g); reflexivity.
    + rewrite answered_cons, IHn. cbn. destruct (inflight g); reflexivity.
Qed.

Ltac unfold_step :=
  unfold step, gen_next, gen_throw, gen_close, next_item, finally_cancel,
    on_channel, take_reply, attached, issued, inflight, calls_of, inbox_of,
    same_arguments, set_channel, set_frame, consume, cancel, basic_ack,
    basic_nack, record, message_of, deliver, observe in *.

(** ** The stream and what is yielded from it *)

(** A step hands out the delivery at the head of the stream or none, and
    leaves a connected handle connected. *)
Lemma step_inbox (a : action) (g : generator) (q : RabbitMQSub) :
  attached g q ->
  forall o g1 q1, step a g q = (o, g1, q1) ->
    (channel q <> None -> channel q1 <> None)
    /\ match o with
       | Yielded m =>
           exists it rest,
             inbox_of q = Gives it :: rest /\ message_of it = Some m
             /\ inbox_of q1 = rest
       | Raised _ | Closed => gen_frame g1 = Finished
       end.
Proof.
  intros Hat o g1 q1. unfold_step.
  destruct a; destruct (gen_frame g) eqn:Hf; destruct (channel q) eqn:Hc;
    try (exfalso; apply Hat; reflexivity).
  all: cbn; intros H; case_split_in H.
  all: inversion H; subst; clear H; cbn; rewrite ?Hc, ?Hf; cbn.
  all: split; try congruence; try discriminate; try reflexivity.
  all: try (intros _; discriminate).
  all: eexists; eexists; split; [reflexivity|].
  all: match goal with H : method_frame _ = Some _ |- _ => rewrite H end.
  all: split; reflexivity.
Qed.

(** [next] on a generator that has not finished, with a delivery at the
    head of the stream: the message is yielded. *)
Lemma step_next_delivery (g : generator) (q : RabbitMQSub) (m : Method)
    (b : bytes) (rest : list reply) :
  channel q <> None ->
  gen_frame g <> Finished ->
  inbox_of q = deliver m b :: rest ->
  forall o g1 q1, step next g q = (o, g1, q1) ->
    o = Yielded (mkMessage (delivery_tag m) b)
    /\ gen_frame g1 = AtYield m
    /\ inbox_of q1 = rest
    /\ channel q1 <> None.
Proof.
  intros Hc Hf Hin o g1 q1. unfold_step.
  destruct (gen_frame g) eqn:Hfr; destruct (channel q) eqn:Hch;
    try congruence.
  all: cbn in *; rewrite ?Hin; cbn; intros H; case_split_in H.
  all: inversion H; subst; clear H; cbn.
  all: repeat split; try congruence; try discriminate.
Qed.

Lemma yielded_step (a : action) (o : outcome) (tr : list (action * outcome)) :
  yielded ((a, o) :: tr) =
  match o with Yielded m => [m] | Raised _ | Closed => [] end ++ yielded tr.
Proof. reflexivity. Qed.

(** A finished generator does nothing more: no call is made, nothing is
    yielded. *)
Lemma finished_run (script : list action) :
  forall g q, gen_frame g = Finished ->
    generator_of (run script g q) = g
    /\ handle_of (run script g q) = q
    /\ yielded (trace_of (run script g q)) = [].
Proof.
  induction script as [|a script IH]; intros g q Hf.
  - cbn. repeat split.
  - rewrite run_cons.
    assert (Hstep : exists o, step a g q = (o, g, q)
                              /\ match o with Yielded _ => False | _ => True end).
    { unfold step, gen_next, gen_throw, gen_close. rewrite Hf.
      destruct a; cbn; eexists; split; try reflexivity; exact I. }
    destruct Hstep as (o & Hs & Ho). rewrite Hs.
    destruct (IH g q Hf) as (Hg & Hq & Hy).
    destruct (run script g q) as [[tr g2] q2].
    unfold generator_of, handle_of, trace_of in *. cbn [fst snd] in *.
    repeat split; try assumption.
    rewrite yielded_step, Hy. destruct o; try reflexivity.
    contradiction.
Qed.

(** The messages a run yields are the messages at the head of the stream,
    in stream order, each at most once. *)
Lemma run_yields_prefix (script : list action) :
  forall g q, attached g q ->
  forall tr g' q', run script g q = (tr, g', q') ->
    exists rest, leading (inbox_of q) = yielded tr ++ rest.
Proof.
  induction script as [|a script IH]; intros g q Hat tr g' q' Hrun.
  - cbn in Hrun. inversion Hrun; subst. cbn. eexists. reflexivity.
  - rewrite run_cons in Hrun.
    destruct (step a g q) as [[o g1] q1] eqn:Hs.
    destruct (run script g1 q1) as [[tr1 g2] q2] eqn:Hr.
    inversion Hrun; subst; clear Hrun.
    destruct (step_issued a g q Hat _ _ _ Hs) as (_ & _ & Hat1 & _).
    destruct (step_inbox a g q Hat _ _ _ Hs) as (_ & Ho).
    destruct o as [m|e|].
    + destruct Ho as (it & rest & Hin & Hm & Hin1).
      destruct (IH g1 q1 Hat1 _ _ _ Hr) as (rest' & Hrest').
      exists rest'. rewrite Hin, yielded_step. cbn [leading app]. rewrite Hm.
      rewrite <- Hrest', Hin1. reflexivity.
    + pose proof (finished_run script g1 q1 Ho) as (_ & _ & Hy).
      rewrite Hr in Hy. unfold trace_of in Hy. cbn [fst snd] in Hy.
      eexists. rewrite yielded_step, Hy. reflexivity.
    + pose proof (finished_run script g1 q1 Ho) as (_ & _ & Hy).
      rewrite Hr in Hy. unfold trace_of in Hy. cbn [fst snd] in Hy.
      eexists. rewrite yielded_step, Hy. reflexivity.
Qed.

(** ** The loop at the head of the stream *)

Lemma next_item_delivery (g : generator) (q : RabbitMQSub) (ch : Channel)
    (it : Item) (m : Method) (rest : list reply) :
  channel q = Some ch -> inbox ch = Gives it :: rest -> method_frame it = Some m ->
  next_item g q =
  (Return (mkMessage (delivery_tag m) (body it)), set_frame g (AtYield m),
   set_channel q (Some (with_calls ch [] rest))).
Proof.
  intros Hc Hin Hm. unfold next_item, take_reply, with_calls.
  rewrite Hc, Hin, Hm, app_nil_r. reflexivity.
Qed.

Lemma next_item_no_method (g : generator) (q : RabbitMQSub) (ch : Channel)
    (it : Item) (rest : list reply) :
  channel q = Some ch -> inbox ch = Gives it :: rest -> method_frame it = None ->
  next_item g q =
  (Raise StopIteration, set_frame g Finished,
   set_channel q (Some (with_calls ch [Cancel] rest))).
Proof.
  intros Hc Hin Hm. unfold next_item, take_reply, with_calls.
  rewrite Hc, Hin, Hm. reflexivity.
Qed.

Lemma next_item_upstream_error (g : generator) (q : RabbitMQSub) (ch : Channel)
    (e : exn) (rest : list reply) :
  channel q = Some ch -> inbox ch = Fails e :: rest -> is_StopIteration e = false ->
  next_item g q =
  (Raise e, set_frame g Finished,
   set_channel q (Some (with_calls ch [Cancel] rest))).
Proof.
  intros Hc Hin He. unfold next_item, take_reply, with_calls, finally_cancel,
    leaves_body.
  rewrite Hc, Hin, He. cbn. rewrite ?He. reflexivity.
Qed.

Lemma next_item_exhausted (g : generator) (q : RabbitMQSub) (ch : Channel) :
  channel q = Some ch -> inbox ch = [] ->
  next_item g q =
  (Raise StopIteration, set_frame g Finished,
   set_channel q (Some (with_calls ch [Cancel] []))).
Proof.
  intros Hc Hin. unfold next_item, take_reply, with_calls.
  rewrite Hc, Hin. unfold finally_cancel, on_channel, cancel, record, set_channel.
  cbn. rewrite Hin. reflexivity.
Qed.

(** The three ways into the loop's next round: the first [next], a [next]
    after a yield, and a [throw] whose exception is suppressed. *)
Lemma gen_next_Created (g : generator) (q : RabbitMQSub) (ch : Channel) :
  gen_frame g = Created -> channel q = Some ch ->
  gen_next g q =
  next_item g (set_channel q (Some (consume (queue q) (timeout g) ch))).
Proof. intros Hf Hc. unfold gen_next. rewrite Hf, Hc. reflexivity. Qed.

Lemma gen_next_AtYield (g : generator) (q : RabbitMQSub) (ch : Channel) (m : Method) :
  gen_frame g = AtYield m -> channel q = Some ch ->
  gen_next g q =
  next_item g
    (if auto_ack g then set_channel q (Some (basic_ack (delivery_tag m) ch)) else q).
Proof.
  intros Hf Hc. unfold gen_next, on_channel. rewrite Hf, Hc.
  destruct (auto_ack g); reflexivity.
Qed.

Lemma gen_throw_suppressed (g : generator) (q : RabbitMQSub) (ch : Channel)
    (m : Method) (e : exn) :
  gen_frame g = AtYield m -> channel q = Some ch ->
  isinstance_Exception e = true -> propagate_error g = false ->
  gen_throw e g q =
  next_item g (set_channel q (Some (basic_nack (delivery_tag m) ch))).
Proof.
  intros Hf Hc He Hp. unfold gen_throw, on_channel. rewrite Hf, Hc, He, Hp.
  reflexivity.
Qed.

Lemma gen_throw_propagated (g : generator) (q : RabbitMQSub) (ch : Channel)
    (m : Method) (e : exn) :
  gen_frame g = AtYield m -> channel q = Some ch ->
  isinstance_Exception e = true -> propagate_error g = true ->
  gen_throw e g q =
  (Raise (leaves_body e), set_frame g Finished,
   set_channel q (Some (with_calls ch [BasicNack (delivery_tag m); Cancel] (inbox ch)))).
Proof.
  intros Hf Hc He Hp.
  unfold gen_throw, on_channel, finally_cancel, with_calls.
  rewrite Hf, Hc, He, Hp.
  unfold set_channel, cancel, basic_nack, record. cbn.
  rewrite <- app_assoc. reflexivity.
Qed.

(** C2.  When the caller raises an exception (an instance of [Exception])
    into the generator while a message is in flight, the generator's first
    call on the channel is the nack of that message, whatever [auto_ack] and
    [propagate_error] are, and no ack is issued for it.  Over a whole run the
    nacks issued are exactly the messages at whose yield the caller
    raised. *)
Theorem caller_exception_nacks_message_in_flight :
  forall (tmo : Z) (aa pe : bool) (m : Method) (q : RabbitMQSub) (e : exn),
    channel q <> None ->
    isinstance_Exception e = true ->
    let g := {| timeout := tmo; auto_ack := aa; propagate_error := pe;
                gen_frame := AtYield m |} in
    let q' := snd (gen_throw e g q) in
    (exists rest, calls_of q' = calls_of q ++ BasicNack (delivery_tag m) :: rest)
    /\ nacks (calls_of q') = nacks (calls_of q) ++ [delivery_tag m]
    /\ acks (calls_of q') = acks (calls_of q)
    /\ (forall script g0 q0, gen_frame g0 = Created ->
          nacks (calls_of (handle_of (run script g0 q0))) =
          nacks (calls_of q0)
            ++ answered raises_exception None (trace_of (run script g0 q0))).
Proof.
  intros tmo aa pe m q e Hc He g q'.
  assert (Hat : attached g q) by exact Hc.
  destruct (gen_throw e g q) as [[r g1] q1] eqn:Hthrow.
  assert (Hs : step (throw e) g q = (observe r, g1, q1)).
  { unfold step. rewrite Hthrow. reflexivity. }
  destruct (step_issued (throw e) g q Hat _ _ _ Hs) as (Hcalls & _).
  subst q'. cbn [snd].
  assert (Hiss : issued g q (throw e) (observe r) =
                 BasicNack (delivery_tag m) ::
                   (if pe then [Cancel] else on_exit (observe r))).
  { unfold issued. cbn. rewrite He. reflexivity. }
  rewrite Hiss in Hcalls.
  split; [eexists; exact Hcalls|].
  split.
  { rewrite Hcalls, nacks_app. cbn.
    destruct pe; cbn; rewrite ?nacks_on_exit; reflexivity. }
  split.
  { rewrite Hcalls, acks_app. cbn.
    destruct pe; cbn; rewrite ?acks_on_exit, ?app_nil_r; reflexivity. }
  intros script g0 q0 Hf0.
  pose proof (run_nacks script g0 q0 (attached_Created g0 q0 Hf0) _ _ _
                (run_eta script g0 q0)) as H.
  rewrite (inflight_Created g0 Hf0) in H. exact H.
Qed.

Lemma caller_exception_nacks_message_in_flight_witness :
  let q := sub_of three_then_timeout in
  let g := {| timeout := 1; auto_ack := false; propagate_error := false;
              gen_frame := AtYield (mkMethod 7) |} in
  channel q <> None /\ isinstance_Exception (OtherException "TestException") = true /\
  nacks (calls_of (snd (gen_throw (OtherException "TestException") g q))) = [7].
Proof.
  intros q g.
  assert (Hc : channel q <> None) by (cbn; discriminate).
  destruct (caller_exception_nacks_message_in_flight 1 false false (mkMethod 7) q
              (OtherException "TestException") Hc eq_refl) as (_ & H & _).
  split; [exact Hc|]. split; [reflexivity|exact H].
Defined.

(** The scenario of the unit test of suppressed errors, cut to three
    messages: the caller raises at the first and calls [next] from then
    on. *)
Example suppress_error_scenario :
  let r := run [next; throw (OtherException "Exception"); next; next]
             (message_generator 1 None (Some false)) (sub_of three_then_timeout) in
  map snd (trace_of r) =
    [Yielded (mkMessage 0 []); Yielded (mkMessage 10 []);
     Yielded (mkMessage 20 []); Raised StopIteration]
  /\ calls_of (handle_of r) =
     [BasicQos 1 true; Consume "queue" 1; BasicNack 0; BasicAck 10;
      BasicAck 20; Cancel].
Proof. split; reflexivity. Qed.

(** ** Consumers started and cancelled *)

Lemma consumes_app (xs ys : list call) :
  consumes (xs ++ ys) = (consumes xs + consumes ys)%nat.
Proof. unfold consumes. rewrite filter_app, length_app. reflexivity. Qed.

(** Every step keeps the balance: consumers started so far are either
    cancelled or the one the suspended generator still holds. *)
Lemma step_balance (a : action) (g : generator) (q : RabbitMQSub) :
  attached g q ->
  forall o g1 q1, step a g q = (o, g1, q1) ->
    (consumes (issued g q a o) + suspended g =
     cancels (issued g q a o) + suspended g1)%nat
    /\ (gen_frame g <> Created -> consumes (issued g q a o) = 0%nat)
    /\ (gen_frame g = Created -> channel q <> None -> a = next ->
        consumes (issued g q a o) = 1%nat).
Proof.
  intros Hat o g1 q1. unfold_step. unfold suspended.
  destruct a; destruct (gen_frame g) eqn:Hf; destruct (channel q) eqn:Hc;
    try (exfalso; apply Hat; reflexivity).
  all: cbn; intros H; case_split_in H.
  all: inversion H; subst; clear H; cbn; rewrite ?Hc, ?Hf; cbn.
  all: repeat split; try congruence; try discriminate; try reflexivity.
Qed.

Lemma run_balance (script : list action) :
  forall g q, attached g q ->
  forall tr g' q', run script g q = (tr, g', q') ->
    (consumes (calls_of q') + cancels (calls_of q) + suspended g =
     cancels (calls_of q') + consumes (calls_of q) + suspended g')%nat.
Proof.
  induction script as [|a script IH]; intros g q Hat tr g' q' Hrun.
  - cbn in Hrun. inversion Hrun; subst. lia.
  - run_step Hrun Hat.
    pose proof (IH g1 q1 Hatt _ _ _ Hrest) as IH1.
    destruct (step_balance a g q Hat _ _ _ Hstep) as (Hb & _ & _).
    rewrite Hcalls, consumes_app, cancels_app in IH1. lia.
Qed.

Lemma run_consumes_started (script : list action) :
  forall g q, attached g q -> gen_frame g <> Created ->
  forall tr g' q', run script g q = (tr, g', q') ->
    consumes (calls_of q') = consumes (calls_of q).
Proof.
  induction script as [|a script IH]; intros g q Hat Hf tr g' q' Hrun.
  - cbn in Hrun. inversion Hrun; subst. reflexivity.
  - run_step Hrun Hat.
    destruct (step_balance a g q Hat _ _ _ Hstep) as (_ & H0 & _).
    rewrite (IH g1 q1 Hatt Hstarted _ _ _ Hrest), Hcalls, consumes_app, (H0 Hf).
    lia.
Qed.

(** A generator started with [next] on a connected handle opens one
    consumer, and none after that. *)
Lemma run_consumes_once (script : list action) (g : generator) (q : RabbitMQSub) :
  gen_frame g = Created -> channel q <> None ->
  forall tr g' q', run (next :: script) g q = (tr, g', q') ->
    consumes (calls_of q') = S (consumes (calls_of q)).
Proof.
  intros Hf Hc tr g' q' Hrun.
  pose proof (attached_Created g q Hf) as Hat.
  run_step Hrun Hat.
  destruct (step_balance next g q Hat _ _ _ Hstep) as (_ & _ & H1).
  rewrite (run_consumes_started script g1 q1 Hatt Hstarted _ _ _ Hrest).
  rewrite Hcalls, consumes_app, (H1 Hf Hc eq_refl). lia.
Qed.

(** A run of one script after another. *)
Lemma run_app (s1 s2 : list action) :
  forall g q,
    run (s1 ++ s2) g q =
    let '(tr1, g1, q1) := run s1 g q in
    let '(tr2, g2, q2) := run s2 g1 q1 in
    (tr1 ++ tr2, g2, q2).
Proof.
  induction s1 as [|a s1 IH]; intros g q.
  - cbn. destruct (run s2 g q) as [[tr2 g2] q2]. reflexivity.
  - cbn [app]. rewrite !run_cons.
    destruct (step a g q) as [[o g1] q1]. rewrite IH.
    destruct (run s1 g1 q1) as [[tr1 g1'] q1'].
    destruct (run s2 g1' q1') as [[tr2 g2] q2]. reflexivity.
Qed.

(** ** A caller that returns from every message of a stream *)

Lemma last_of_nonempty {A : Type} (x : A) (l : list A) (d1 d2 : A) :
  last (x :: l) d1 = last (x :: l) d2.
Proof.
  revert x. induction l as [|y l IH]; intros x; [reflexivity|].
  change (last (y :: l) d1 = last (y :: l) d2). apply IH.
Qed.

(** One [next] per delivery: each call yields the next delivery. *)
Lemma run_nexts (ds : list delivery) :
  forall g q rest,
    channel q <> None -> gen_frame g <> Finished ->
    inbox_of q = deliveries_of ds ++ rest ->
    let r := run (repeat next (List.length ds)) g q in
    trace_of r = returned ds
    /\ inbox_of (handle_of r) = rest
    /\ channel (handle_of r) <> None
    /\ gen_frame (generator_of r) =
       last (map (fun d => AtYield (fst d)) ds) (gen_frame g)
    /\ same_arguments g (generator_of r).
Proof.
  induction ds as [|d ds IH]; intros g q rest Hc Hf Hin r.
  - subst r. cbn. unfold same_arguments. repeat split; assumption.
  - subst r. cbn [List.length repeat]. rewrite run_cons.
    destruct (step next g q) as [[o g1] q1] eqn:Hs.
    assert (Hat : attached g q).
    { unfold attached. destruct (gen_frame g); auto. }
    destruct (step_issued next g q Hat _ _ _ Hs) as (_ & _ & _ & Hsame & _).
    destruct (step_next_delivery g q (fst d) (snd d) (deliveries_of ds ++ rest)
                Hc Hf Hin _ _ _ Hs) as (Ho & Hf1 & Hin1 & Hc1).
    assert (Hf1' : gen_frame g1 <> Finished) by (rewrite Hf1; discriminate).
    pose proof (IH g1 q1 rest Hc1 Hf1' Hin1) as IH1. cbv zeta in IH1.
    destruct (run (repeat next (List.length ds)) g1 q1) as [[tr g2] q2].
    unfold trace_of, handle_of, generator_of in *. cbn [fst snd] in *.
    destruct IH1 as (Htr & Hin2 & Hc2 & Hf2 & Hsame2).
    subst o. rewrite Htr. repeat split; try assumption.
    + rewrite Hf2, Hf1. cbn [map].
      destruct ds as [|d' ds']; [reflexivity|].
      cbn [map].
      transitivity (last (AtYield (fst d') :: map (fun d => AtYield (fst d)) ds')
                      (gen_frame g)); [apply last_of_nonempty|reflexivity].
    + destruct Hsame as (? & ? & ?), Hsame2 as (? & ? & ?). congruence.
    + destruct Hsame as (? & ? & ?), Hsame2 as (? & ? & ?). congruence.
    + destruct Hsame as (? & ? & ?), Hsame2 as (? & ? & ?). congruence.
Qed.

Lemma answered_returns_until_raise (ds : list delivery) (dk : delivery)
    (e : exn) (o : outcome) :
  forall t0,
    answered returns_normally t0 (returned (ds ++ [dk]) ++ [(throw e, o)]) =
    tag_list t0 ++ map tag_at ds.
Proof.
  induction ds as [|d ds IH]; intros t0.
  - cbn. destruct t0; reflexivity.
  - change (returned ((d :: ds) ++ [dk]) ++ [(throw e, o)])
      with ((next, Yielded (message_at d)) :: (returned (ds ++ [dk]) ++ [(throw e, o)])).
    rewrite answered_cons, IH. cbn. destruct t0; reflexivity.
Qed.

Lemma answered_raise_at_last (ds : list delivery) (dk : delivery)
    (e : exn) (o : outcome) :
  isinstance_Exception e = true ->
  forall t0,
    answered raises_exception t0 (returned (ds ++ [dk]) ++ [(throw e, o)]) =
    [tag_at dk].
Proof.
  intros He. induction ds as [|d ds IH]; intros t0.
  - cbn. rewrite He. destruct t0; reflexivity.
  - change (returned ((d :: ds) ++ [dk]) ++ [(throw e, o)])
      with ((next, Yielded (message_at d)) :: (returned (ds ++ [dk]) ++ [(throw e, o)])).
    rewrite answered_cons, IH. cbn. destruct t0; reflexivity.
Qed.

(** C4.  With [auto_ack] and [propagate_error] on, when the broker delivers
    the messages [ds ++ [dk]] and the caller returns from each message of
    [ds] and raises at [dk], the k-th, the call that raises ends the
    generator; at that moment the acks issued are those of the k-1 messages
    of [ds], in order, the one nack issued is that of [dk], the consumer has
    been cancelled, and the caller's exception is raised out of the
    generator. *)
Theorem propagated_error_acks_before_nacks_failed :
  forall (g : generator) (q : RabbitMQSub) (ds : list delivery) (dk : delivery)
         (rest : list reply) (e : exn),
    gen_frame g = Created ->
    auto_ack g = true ->
    propagate_error g = true ->
    channel q <> None ->
    inbox_of q = deliveries_of (ds ++ [dk]) ++ rest ->
    isinstance_Exception e = true ->
    let k := List.length (ds ++ [dk]) in
    let r := run (repeat next k ++ [throw e]) g q in
    trace_of r = returned (ds ++ [dk]) ++ [(throw e, Raised (leaves_body e))]
    /\ gen_frame (generator_of r) = Finished
    /\ acks (calls_of (handle_of r)) = acks (calls_of q) ++ map tag_at ds
    /\ List.length (acks (calls_of (handle_of r))) =
       (List.length (acks (calls_of q)) + (k - 1))%nat
    /\ nacks (calls_of (handle_of r)) = nacks (calls_of q) ++ [tag_at dk]
    /\ cancels (calls_of (handle_of r)) = S (cancels (calls_of q)).
Proof.
  intros g q ds dk rest e Hf Hack Hprop Hc Hin He k r.
  assert (Hnf : gen_frame g <> Finished) by (rewrite Hf; discriminate).
  pose proof (run_nexts (ds ++ [dk]) g q rest Hc Hnf Hin) as Hn.
  cbv zeta in Hn. fold k in Hn.
  pose proof (attached_Created g q Hf) as Hat.
  assert (Hk : k = S (List.length ds)).
  { unfold k. rewrite length_app. cbn. lia. }
  (* the k returns, then the call that raises *)
  assert (Hrun : run (repeat next k ++ [throw e]) g q = r) by reflexivity.
  rewrite run_app in Hrun.
  destruct (run (repeat next k) g q) as [[tr1 g1] q1] eqn:Hr1.
  unfold trace_of, handle_of, generator_of in Hn. cbn [fst snd] in Hn.
  destruct Hn as (Htr1 & Hin1 & Hc1 & Hf1 & Hsame).
  rewrite map_app in Hf1. cbn [map] in Hf1. rewrite last_last in Hf1.
  destruct (channel q1) as [ch1|] eqn:Hch1; [|congruence].
  destruct Hsame as (_ & Hack1 & Hprop1).
  assert (Hthrow : run [throw e] g1 q1 =
            ([(throw e, Raised (leaves_body e))], set_frame g1 Finished,
             set_channel q1
               (Some (with_calls ch1 [BasicNack (tag_at dk); Cancel] (inbox ch1))))).
  { cbn. rewrite (gen_throw_propagated g1 q1 ch1 (fst dk) e Hf1 Hch1 He
                    (eq_trans Hprop1 Hprop)). reflexivity. }
  rewrite Hthrow in Hrun.
  assert (Htrace : trace_of r =
            returned (ds ++ [dk]) ++ [(throw e, Raised (leaves_body e))]).
  { rewrite <- Hrun, <- Htr1. reflexivity. }
  assert (Hfin : gen_frame (generator_of r) = Finished).
  { rewrite <- Hrun. reflexivity. }
  pose proof (run_eta (repeat next k ++ [throw e]) g q) as Heta. fold r in Heta.
  pose proof (run_acks _ g q Hat Hack _ _ _ Heta) as Hacks.
  pose proof (run_nacks _ g q Hat _ _ _ Heta) as Hnacks.
  rewrite Htrace, (inflight_Created g Hf) in Hacks, Hnacks.
  rewrite answered_returns_until_raise in Hacks.
  rewrite (answered_raise_at_last ds dk e _ He) in Hnacks.
  cbn [tag_list app] in Hacks.
  pose proof (run_balance _ g q Hat _ _ _ Heta) as Hbal.
  assert (Hcons : consumes (calls_of (handle_of r)) = S (consumes (calls_of q))).
  { apply (run_consumes_once (repeat next (List.length ds) ++ [throw e]) g q
             Hf Hc (trace_of r) (generator_of r)).
    rewrite <- Heta. unfold r. rewrite Hk. reflexivity. }
  unfold suspended in Hbal. rewrite Hf, Hfin in Hbal.
  repeat split; try assumption.
  - rewrite Hacks, length_app, length_map, Hk. lia.
  - lia.
Qed.

Lemma propagated_error_acks_before_nacks_failed_witness :
  let g := message_generator 1 None None in
  let q := sub_of three_then_timeout in
  let e := OtherException "TestException" in
  let r := run [next; next; next; throw e] g q in
  (gen_frame g = Created /\ auto_ack g = true /\ propagate_error g = true /\
   channel q <> None /\ isinstance_Exception e = true) /\
  acks (calls_of (handle_of r)) = [0; 10] /\
  nacks (calls_of (handle_of r)) = [20] /\
  cancels (calls_of (handle_of r)) = 1%nat.
Proof.
  intros g q e r.
  assert (Hc : channel q <> None) by (cbn; discriminate).
  destruct (propagated_error_acks_before_nacks_failed g q
              [(mkMethod 0, []); (mkMethod 10, [])] (mkMethod 20, [])
              [Gives no_item] e eq_refl eq_refl eq_refl Hc eq_refl eq_refl)
    as (_ & _ & Ha & _ & Hn & Hcan).
  split; [repeat split; exact Hc|].
  split; [exact Ha|]. split; [exact Hn|exact Hcan].
Defined.

(** ** Leaving the [try] block *)

Lemma issued_on_leaving (g : generator) (q : RabbitMQSub) (a : action)
    (o : outcome) (m : Method) :
  gen_frame g = AtYield m -> in_flight_after o = None ->
  exists pre, issued g q a o = pre ++ [Cancel].
Proof.
  intros Hf Ho. unfold issued. rewrite Hf.
  assert (Hexit : on_exit o = [Cancel]) by (destruct o; [discriminate|reflexivity..]).
  destruct a as [|e|].
  - rewrite Hexit. eexists. reflexivity.
  - destruct (isinstance_Exception e).
    + destruct (propagate_error g); rewrite ?Hexit;
        exists [BasicNack (delivery_tag m)]; reflexivity.
    + exists []. reflexivity.
  - exists []. reflexivity.
Qed.

Lemma AtYield_of_inflight (g : generator) (t : Z) :
  inflight g = Some t -> exists m, gen_frame g = AtYield m.
Proof.
  unfold inflight. destruct (gen_frame g) as [|m|]; try discriminate.
  intros _. exists m. reflexivity.
Qed.

(** A suspended generator that comes to its end has cancelled the consumer
    with its last call. *)
Lemma run_ends_with_cancel (script : list action) :
  forall g q m, gen_frame g = AtYield m -> channel q <> None ->
  forall tr g' q', run script g q = (tr, g', q') ->
    gen_frame g' = Finished ->
    exists pre, calls_of q' = pre ++ [Cancel].
Proof.
  induction script as [|a script IH]; intros g q m Hf Hc tr g' q' Hrun Hend.
  - cbn in Hrun. inversion Hrun; subst. congruence.
  - assert (Hat : attached g q) by (unfold attached; rewrite Hf; exact Hc).
    run_step Hrun Hat.
    destruct (step_inbox a g q Hat _ _ _ Hstep) as (Hc1 & Ho).
    destruct (in_flight_after o) as [t|] eqn:Hafter.
    + destruct (AtYield_of_inflight g1 t Hinfl) as (m1 & Hf1).
      exact (IH g1 q1 m1 Hf1 (Hc1 Hc) _ _ _ Hrest Hend).
    + assert (Hfin : gen_frame g1 = Finished).
      { destruct o; [discriminate|exact Ho..]. }
      destruct (finished_run script g1 q1 Hfin) as (_ & Hq & _).
      rewrite Hrest in Hq. unfold handle_of in Hq. cbn [snd] in Hq. subst q'.
      destruct (issued_on_leaving g q a o m Hf Hafter) as (pre & Hpre).
      exists (calls_of q ++ pre). rewrite Hcalls, Hpre, app_assoc. reflexivity.
Qed.

Lemma run_started (script : list action) :
  forall g q, attached g q -> gen_frame g <> Created ->
  forall tr g' q', run script g q = (tr, g', q') -> gen_frame g' <> Created.
Proof.
  induction script as [|a script IH]; intros g q Hat Hf tr g' q' Hrun.
  - cbn in Hrun. inversion Hrun; subst. exact Hf.
  - run_step Hrun Hat. exact (IH g1 q1 Hatt Hstarted _ _ _ Hrest).
Qed.

(** The consumer of a generator started on a connected handle is cancelled
    exactly once, with the last call, when the generator ends, and not
    before. *)
Lemma consumer_cancelled_at_end (script : list action) (g : generator)
    (q : RabbitMQSub) :
  gen_frame g = Created -> channel q <> None ->
  let r := run (next :: script) g q in
  (gen_frame (generator_of r) = Finished ->
     cancels (calls_of (handle_of r)) = S (cancels (calls_of q))
     /\ exists pre, calls_of (handle_of r) = pre ++ [Cancel])
  /\ (gen_frame (generator_of r) <> Finished ->
     cancels (calls_of (handle_of r)) = cancels (calls_of q)).
Proof.
  intros Hf Hc r.
  pose proof (attached_Created g q Hf) as Hat.
  pose proof (run_eta (next :: script) g q) as Heta. fold r in Heta.
  pose proof (run_balance _ g q Hat _ _ _ Heta) as Hbal.
  pose proof (run_consumes_once script g q Hf Hc _ _ _ Heta) as Hcons.
  unfold suspended in Hbal. rewrite Hf in Hbal.
  assert (Hrun : run (next :: script) g q =
                 (trace_of r, generator_of r, handle_of r)) by exact Heta.
  run_step Hrun Hat.
  pose proof (run_started script g1 q1 Hatt Hstarted _ _ _ Hrest) as Hnc.
  split.
  - intros Hend. rewrite Hend in Hbal. split; [lia|].
    destruct (step_inbox next g q Hat _ _ _ Hstep) as (Hc1 & Ho).
    destruct (in_flight_after o) as [t|] eqn:Hafter.
    + destruct (AtYield_of_inflight g1 t Hinfl) as (m1 & Hf1).
      exact (run_ends_with_cancel script g1 q1 m1 Hf1 (Hc1 Hc) _ _ _ Hrest Hend).
    + assert (Hfin : gen_frame g1 = Finished).
      { destruct o; [discriminate|exact Ho..]. }
      destruct (finished_run script g1 q1 Hfin) as (_ & Hq & _).
      rewrite Hrest in Hq. change (handle_of r = q1) in Hq.
      rewrite Hq, Hcalls. unfold issued. rewrite Hf.
      destruct (channel q); [|congruence].
      exists (calls_of q ++ [Consume (queue q) (timeout g)]).
      rewrite <- app_assoc. destruct o; [discriminate|reflexivity..].
  - intros Hnot.
    destruct (gen_frame (generator_of r)) eqn:Hf2; try congruence. lia.
Qed.

Lemma gen_next_AtYield_calls (g : generator) (q : RabbitMQSub) (ch : Channel)
    (m : Method) :
  gen_frame g = AtYield m -> channel q = Some ch ->
  gen_next g q =
  next_item g (set_channel q (Some (with_calls ch (acked_first g m) (inbox ch)))).
Proof.
  intros Hf Hc. rewrite (gen_next_AtYield g q ch m Hf Hc).
  unfold acked_first, with_calls, set_channel, basic_ack, record.
  destruct (auto_ack g); [reflexivity|].
  rewrite app_nil_r. destruct q as [a n c ch0 ci p]. cbn in *. subst ch0.
  destruct ch. reflexivity.
Qed.

Lemma with_calls_twice (ch : Channel) (xs ys : list call) (r1 r2 : list reply) :
  with_calls (with_calls ch xs r1) ys r2 = with_calls ch (xs ++ ys) r2.
Proof. unfold with_calls. cbn. rewrite app_assoc. reflexivity. Qed.

Lemma set_channel_twice (q : RabbitMQ) (c1 c2 : option Channel) :
  set_channel (set_channel q c1) c2 = set_channel q c2.
Proof. reflexivity. Qed.

(** C5.  An error raised by the stream of [consume] (anything but the
    [StopIteration] that ends an iterator) reaches the caller as it is,
    whatever [propagate_error] is and whichever way the loop came to ask for
    the next item: the first [next], a [next] after a yield, or a [throw]
    whose exception was suppressed.  Each time the last call on the channel
    is [cancel].  And on every path that ends a generator started on a
    connected handle (end of the stream, upstream error, propagated caller
    error, [close]), the consumer is cancelled exactly once, with the last
    call; while the generator is suspended it is not cancelled. *)
Theorem upstream_error_propagates_and_consumer_is_cancelled :
  forall (g : generator) (q : RabbitMQSub) (ch : Channel) (e : exn)
         (rest : list reply),
    channel q = Some ch ->
    inbox ch = Fails e :: rest ->
    is_StopIteration e = false ->
    (gen_frame g = Created ->
       gen_next g q =
       (Raise e, set_frame g Finished,
        set_channel q
          (Some (with_calls ch [Consume (queue q) (timeout g); Cancel] rest))))
    /\ (forall m, gen_frame g = AtYield m ->
       gen_next g q =
       (Raise e, set_frame g Finished,
        set_channel q (Some (with_calls ch (acked_first g m ++ [Cancel]) rest))))
    /\ (forall m e', gen_frame g = AtYield m ->
       isinstance_Exception e' = true -> propagate_error g = false ->
       gen_throw e' g q =
       (Raise e, set_frame g Finished,
        set_channel q
          (Some (with_calls ch [BasicNack (delivery_tag m); Cancel] rest))))
    /\ (forall script g0 q0,
       gen_frame g0 = Created -> channel q0 <> None ->
       let r := run (next :: script) g0 q0 in
       (gen_frame (generator_of r) = Finished ->
          cancels (calls_of (handle_of r)) = S (cancels (calls_of q0))
          /\ exists pre, calls_of (handle_of r) = pre ++ [Cancel])
       /\ (gen_frame (generator_of r) <> Finished ->
          cancels (calls_of (handle_of r)) = cancels (calls_of q0))).
Proof.
  intros g q ch e rest Hc Hin He.
  split; [|split; [|split]].
  - intros Hf. rewrite (gen_next_Created g q ch Hf Hc).
    rewrite (next_item_upstream_error g _ (consume (queue q) (timeout g) ch) e rest);
      try reflexivity; try assumption.
    unfold with_calls, consume, record, set_channel. cbn.
    rewrite <- app_assoc. reflexivity.
  - intros m Hf. rewrite (gen_next_AtYield_calls g q ch m Hf Hc).
    rewrite (next_item_upstream_error g _ (with_calls ch (acked_first g m) (inbox ch))
               e rest); try reflexivity; try assumption.
    rewrite set_channel_twice, with_calls_twice. reflexivity.
  - intros m e' Hf He' Hp.
    rewrite (gen_throw_suppressed g q ch m e' Hf Hc He' Hp).
    rewrite (next_item_upstream_error g _ (basic_nack (delivery_tag m) ch) e rest);
      try reflexivity; try assumption.
    unfold with_calls, basic_nack, record, set_channel. cbn.
    rewrite <- app_assoc. reflexivity.
  - intros script g0 q0 Hf0 Hc0. exact (consumer_cancelled_at_end script g0 q0 Hf0 Hc0).
Qed.

Lemma upstream_error_propagates_and_consumer_is_cancelled_witness :
  let q := set_channel (sub_of one_then_error)
             (Some {| calls := [BasicQos 1 true];
                      inbox := [Fails (OtherException "AMQPError")];
                      publish_error := None |}) in
  let g := {| timeout := 1; auto_ack := true; propagate_error := false;
              gen_frame := AtYield (mkMethod 0) |} in
  is_StopIteration (OtherException "AMQPError") = false /\
  fst (fst (gen_next g q)) = Raise (OtherException "AMQPError") /\
  calls_of (snd (gen_next g q)) = [BasicQos 1 true; BasicAck 0; Cancel].
Proof.
  intros q g.
  destruct (upstream_error_propagates_and_consumer_is_cancelled g q
              {| calls := [BasicQos 1 true];
                 inbox := [Fails (OtherException "AMQPError")];
                 publish_error := None |}
              (OtherException "AMQPError") [] eq_refl eq_refl eq_refl)
    as (_ & H & _).
  rewrite (H (mkMethod 0) eq_refl).
  split; [reflexivity|]. split; reflexivity.
Defined.

(** The repository's upstream-error scenario, with either setting of
    [propagate_error]: the library's error comes out of the generator and
    the consumer is cancelled. *)
Example upstream_error_scenario (pe : bool) :
  let r := run [next; next] (message_generator 1 None (Some pe))
             (sub_of one_then_error) in
  map snd (trace_of r) =
    [Yielded (mkMessage 0 []); Raised (OtherException "AMQPError")]
  /\ calls_of (handle_of r) =
     [BasicQos 1 true; Consume "queue" 1; BasicAck 0; Cancel].
Proof. destruct pe; split; reflexivity. Qed.

(** C7.  An item of the stream without a method frame ends the generator
    normally, whichever way the loop came to ask for it: the caller gets
    [StopIteration], the consumer is cancelled, and whatever the caller
    does afterwards the generator yields nothing more and makes no further
    call. *)
Theorem no_method_frame_ends_generator :
  forall (g : generator) (q : RabbitMQSub) (ch : Channel) (it : Item)
         (rest : list reply),
    channel q = Some ch ->
    inbox ch = Gives it :: rest ->
    method_frame it = None ->
    (gen_frame g = Created ->
       gen_next g q =
       (Raise StopIteration, set_frame g Finished,
        set_channel q
          (Some (with_calls ch [Consume (queue q) (timeout g); Cancel] rest))))
    /\ (forall m, gen_frame g = AtYield m ->
       gen_next g q =
       (Raise StopIteration, set_frame g Finished,
        set_channel q (Some (with_calls ch (acked_first g m ++ [Cancel]) rest))))
    /\ (forall m e, gen_frame g = AtYield m ->
       isinstance_Exception e = true -> propagate_error g = false ->
       gen_throw e g q =
       (Raise StopIteration, set_frame g Finished,
        set_channel q
          (Some (with_calls ch [BasicNack (delivery_tag m); Cancel] rest))))
    /\ (forall script q',
       let r := run script (set_frame g Finished) q' in
       yielded (trace_of r) = [] /\ handle_of r = q'
       /\ generator_of r = set_frame g Finished).
Proof.
  intros g q ch it rest Hc Hin Hm.
  split; [|split; [|split]].
  - intros Hf. rewrite (gen_next_Created g q ch Hf Hc).
    rewrite (next_item_no_method g _ (consume (queue q) (timeout g) ch) it rest);
      try reflexivity; try assumption.
    unfold with_calls, consume, record, set_channel. cbn.
    rewrite <- app_assoc. reflexivity.
  - intros m Hf. rewrite (gen_next_AtYield_calls g q ch m Hf Hc).
    rewrite (next_item_no_method g _ (with_calls ch (acked_first g m) (inbox ch))
               it rest); try reflexivity; try assumption.
    rewrite set_channel_twice, with_calls_twice. reflexivity.
  - intros m e Hf He Hp.
    rewrite (gen_throw_suppressed g q ch m e Hf Hc He Hp).
    rewrite (next_item_no_method g _ (basic_nack (delivery_tag m) ch) it rest);
      try reflexivity; try assumption.
    unfold with_calls, basic_nack, record, set_channel. cbn.
    rewrite <- app_assoc. reflexivity.
  - intros script q' r.
    destruct (finished_run script (set_frame g Finished) q' eq_refl)
      as (Hg & Hq & Hy).
    repeat split; assumption.
Qed.

Lemma no_method_frame_ends_generator_witness :
  let q := set_channel (sub_of three_then_timeout)
             (Some {| calls := [BasicQos 1 true]; inbox := [Gives no_item];
                      publish_error := None |}) in
  let g := {| timeout := 1; auto_ack := true; propagate_error := true;
              gen_frame := AtYield (mkMethod 20) |} in
  method_frame no_item = None /\
  fst (fst (gen_next g q)) = Raise StopIteration /\
  gen_frame (snd (fst (gen_next g q))) = Finished /\
  calls_of (snd (gen_next g q)) = [BasicQos 1 true; BasicAck 20; Cancel].
Proof.
  intros q g.
  destruct (no_method_frame_ends_generator g q
              {| calls := [BasicQos 1 true]; inbox := [Gives no_item];
                 publish_error := None |}
              no_item [] eq_refl eq_refl eq_refl) as (_ & H & _).
  rewrite (H (mkMethod 20) eq_refl).
  split; [reflexivity|]. split; [reflexivity|]. split; reflexivity.
Defined.

(** ** Defaults, handles and connection state *)

(** C6 (as the code has it).  When the caller leaves [propagate_error] out,
    [message_generator] takes it to be true, whatever the other arguments:
    an exception raised into the generator at a yielded message is nacked,
    the consumer is cancelled, and the exception is raised again to the
    caller; it is not suppressed. *)
Theorem propagate_error_defaults_to_true :
  forall (tmo : Z) (aa : option bool),
    propagate_error (message_generator tmo aa None) = true
    /\ (forall (q : RabbitMQSub) (ch : Channel) (m : Method) (e : exn),
          channel q = Some ch -> isinstance_Exception e = true ->
          let g := set_frame (message_generator tmo aa None) (AtYield m) in
          gen_throw e g q =
          (Raise (leaves_body e), set_frame g Finished,
           set_channel q
             (Some (with_calls ch [BasicNack (delivery_tag m); Cancel] (inbox ch))))).
Proof.
  intros tmo aa. split; [reflexivity|].
  intros q ch m e Hc He g.
  apply gen_throw_propagated; auto.
Qed.

Lemma propagate_error_defaults_to_true_witness :
  let q := sub_of three_then_timeout in
  let e := OtherException "TestException" in
  let g := set_frame (message_generator 1 None None) (AtYield (mkMethod 0)) in
  isinstance_Exception e = true /\
  fst (fst (gen_throw e g q)) = Raise e /\
  calls_of (snd (gen_throw e g q)) = [BasicQos 1 true; BasicNack 0; Cancel].
Proof.
  intros q e g.
  destruct (propagate_error_defaults_to_true 1 None) as [_ H].
  specialize (H q _ (mkMethod 0) e eq_refl eq_refl). cbv zeta in H.
  fold g in H. rewrite H. split; [reflexivity|]. split; reflexivity.
Defined.

(** C6, as the claim states it, fails: with [propagate_error] left out the
    flag is not false, and the caller's exception comes back out of the
    generator. *)
Lemma propagate_error_default_is_not_false :
  propagate_error (message_generator 1 None None) <> false
  /\ map snd
       (trace_of (run [next; throw (OtherException "TestException")]
                    (message_generator 1 None None) (sub_of three_then_timeout))) =
     [Yielded (mkMessage 0 []); Raised (OtherException "TestException")].
Proof. split; [discriminate|reflexivity]. Qed.

(** C8.  [create_sub_queue] either fails with the library's connection
    error or returns a handle that carries the address, the queue name and
    the given prefetch value, on an open connection of its own whose channel
    has received exactly one call so far: [basic_qos] with
    [prefetch_count] the given prefetch and [global_qos] on, so that the
    limit is set before any message can be received on the handle and
    covers the whole channel of this subscriber.  (The bound on unacked
    messages itself is what the broker enforces for that setting.)  With
    the prefetch argument left out the value is 1. *)
Theorem create_sub_queue_configures_prefetch :
  forall (pika : Pika) (addr name : string) (p : Z),
    create_sub_queue pika addr name (Some p) =
      match connect_error pika with
      | Some e => Raise e
      | None =>
          Return {| address := addr; queue := name;
                    connection := Some {| parameters := addr; is_closed := false;
                                          is_closing := false |};
                    channel := Some {| calls := [BasicQos p true];
                                       inbox := deliveries pika;
                                       publish_error := publish_reply pika |};
                    consumer_id := None; prefetch := p |}
      end
    /\ create_sub_queue pika addr name None =
       create_sub_queue pika addr name (Some 1).
Proof.
  intros pika addr name p. split; [|reflexivity].
  unfold create_sub_queue, RabbitMQSub_connect, RabbitMQ_connect.
  destruct (connect_error pika); reflexivity.
Qed.

(** C10.  On a handle whose channel is unset, [send_message],
    [get_message] and [ack_message] raise "queue is not connected" and
    leave the handle as it was: no call reaches the broker.  The generator
    raises the same error at its first [next], is finished by it, and in
    whatever the caller does afterwards it yields no message and the handle
    stays untouched. *)
Theorem not_connected_raises_before_any_call :
  forall (q : RabbitMQ),
    channel q = None ->
    (forall msg, send_message q msg = (Raise not_connected, q))
    /\ get_message q = (Raise not_connected, q)
    /\ (forall id, ack_message q id = (Raise not_connected, q))
    /\ (forall tmo aa pe,
          gen_next (message_generator tmo aa pe) q =
          (Raise not_connected,
           set_frame (message_generator tmo aa pe) Finished, q))
    /\ (forall tmo aa pe script,
          let r := run (next :: script) (message_generator tmo aa pe) q in
          hd_error (trace_of r) = Some (next, Raised not_connected)
          /\ yielded (trace_of r) = []
          /\ handle_of r = q
          /\ gen_frame (generator_of r) = Finished).
Proof.
  intros q Hc.
  assert (Hnext : forall tmo aa pe,
            gen_next (message_generator tmo aa pe) q =
            (Raise not_connected,
             set_frame (message_generator tmo aa pe) Finished, q)).
  { intros. unfold gen_next. cbn. rewrite Hc. reflexivity. }
  split; [|split; [|split; [|split]]].
  - intros msg. unfold send_message. rewrite Hc. reflexivity.
  - unfold get_message. rewrite Hc. reflexivity.
  - intros id. unfold ack_message. rewrite Hc. reflexivity.
  - exact Hnext.
  - intros tmo aa pe script r. subst r. rewrite run_cons.
    unfold step. rewrite Hnext.
    destruct (finished_run script
                (set_frame (message_generator tmo aa pe) Finished) q eq_refl)
      as (Hg & Hq & Hy).
    destruct (run script (set_frame (message_generator tmo aa pe) Finished) q)
      as [[tr g2] q2].
    unfold trace_of, handle_of, generator_of in *. cbn [fst snd observe] in *.
    subst. repeat split. rewrite yielded_step. exact Hy.
Qed.

Lemma not_connected_raises_before_any_call_witness :
  let q := RabbitMQSub_init "localhost" "queue" in
  channel q = None /\
  get_message q = (Raise (RuntimeError "queue is not connected"), q) /\
  map snd (trace_of (run [next; next] (message_generator 1 None None) q)) =
    [Raised (RuntimeError "queue is not connected"); Raised StopIteration].
Proof.
  intros q.
  destruct (not_connected_raises_before_any_call q eq_refl) as (_ & H & _).
  split; [reflexivity|]. split; [exact H|reflexivity].
Defined.

(** ** Two further facts about a message in flight *)

(** X1.  An exception that is not an instance of [Exception] raised at a yielded
    message, and [close], which raises [GeneratorExit] there, only cancel
    the consumer: the message in flight is neither acked nor nacked. *)
Theorem abandoned_message_is_neither_acked_nor_nacked :
  forall (g : generator) (q : RabbitMQSub) (ch : Channel) (m : Method) (e : exn),
    gen_frame g = AtYield m ->
    channel q = Some ch ->
    isinstance_Exception e = false ->
    gen_throw e g q =
      (Raise e, set_frame g Finished,
       set_channel q (Some (with_calls ch [Cancel] (inbox ch))))
    /\ gen_close g q =
      (Return tt, set_frame g Finished,
       set_channel q (Some (with_calls ch [Cancel] (inbox ch)))).
Proof.
  intros g q ch m e Hf Hc He.
  unfold gen_throw, gen_close, finally_cancel, on_channel, leaves_body.
  rewrite Hf, Hc, He. cbn.
  assert (Hs : is_StopIteration e = false) by (destruct e; try reflexivity; discriminate).
  rewrite Hs. split; reflexivity.
Qed.

Lemma abandoned_message_is_neither_acked_nor_nacked_witness :
  let q := sub_of three_then_timeout in
  let g := {| timeout := 1; auto_ack := true; propagate_error := true;
              gen_frame := AtYield (mkMethod 12) |} in
  isinstance_Exception GeneratorExit = false /\
  calls_of (snd (gen_close g q)) = [BasicQos 1 true; Cancel].
Proof.
  intros q g.
  destruct (abandoned_message_is_neither_acked_nor_nacked g q
              {| calls := [BasicQos 1 true];
                 inbox := deliveries three_then_timeout;
                 publish_error := None |}
              (mkMethod 12) GeneratorExit eq_refl eq_refl eq_refl) as [_ H].
  rewrite H. split; reflexivity.
Defined.

(** X2.  With [propagate_error] off and [auto_ack] on, the message that follows
    a nacked one is the value of the [throw] call itself; the caller's
    following [next] acks it and yields the message after it. *)
Theorem suppressed_throw_hands_back_next_message :
  forall (g : generator) (q : RabbitMQSub) (ch : Channel) (m : Method) (e : exn)
         (d1 d2 : delivery) (rest : list reply),
    gen_frame g = AtYield m ->
    auto_ack g = true ->
    propagate_error g = false ->
    channel q = Some ch ->
    inbox ch = deliveries_of [d1; d2] ++ rest ->
    isinstance_Exception e = true ->
    let r := run [throw e; next] g q in
    trace_of r =
      [(throw e, Yielded (message_at d1)); (next, Yielded (message_at d2))]
    /\ calls_of (handle_of r) =
       calls ch ++ [BasicNack (delivery_tag m); BasicAck (tag_at d1)]
    /\ gen_frame (generator_of r) = AtYield (fst d2).
Proof.
  intros g q ch m e d1 d2 rest Hf Hack Hprop Hc Hin He r. subst r.
  cbn [run step].
  rewrite (gen_throw_suppressed g q ch m e Hf Hc He Hprop).
  rewrite (next_item_delivery g _ (basic_nack (delivery_tag m) ch)
             {| method_frame := Some (fst d1); header_frame := None;
                body := snd d1 |} (fst d1) (deliveries_of [d2] ++ rest));
    try reflexivity; try (cbn; rewrite Hin; reflexivity).
  cbn [observe].
  rewrite (gen_next_AtYield (set_frame g (AtYield (fst d1))) _
             (with_calls (basic_nack (delivery_tag m) ch) []
                (deliveries_of [d2] ++ rest)) (fst d1));
    try reflexivity.
  cbn [auto_ack set_frame]. rewrite Hack.
  rewrite (next_item_delivery _ _
             (basic_ack (delivery_tag (fst d1))
                (with_calls (basic_nack (delivery_tag m) ch) []
                   (deliveries_of [d2] ++ rest)))
             {| method_frame := Some (fst d2); header_frame := None;
                body := snd d2 |} (fst d2) rest);
    try reflexivity.
  unfold trace_of, handle_of, generator_of, calls_of, message_at, tag_at.
  cbn. rewrite !app_nil_r, <- !app_assoc. repeat split.
Qed.

Lemma suppressed_throw_hands_back_next_message_witness :
  let q := sub_of three_then_timeout in
  let g := {| timeout := 1; auto_ack := true; propagate_error := false;
              gen_frame := AtYield (mkMethod 7) |} in
  let e := OtherException "TestException" in
  isinstance_Exception e = true /\
  map snd (trace_of (run [throw e; next] g q)) =
    [Yielded (mkMessage 0 []); Yielded (mkMessage 10 [])] /\
  calls_of (handle_of (run [throw e; next] g q)) =
    [BasicQos 1 true; BasicNack 7; BasicAck 0].
Proof.
  intros q g e.
  destruct (suppressed_throw_hands_back_next_message g q
              {| calls := [BasicQos 1 true];
                 inbox := deliveries three_then_timeout;
                 publish_error := None |}
              (mkMethod 7) e (mkMethod 0, []) (mkMethod 10, [])
              [deliver (mkMethod 20) []; Gives no_item]
              eq_refl eq_refl eq_refl eq_refl eq_refl eq_refl) as (H1 & H2 & _).
  split; [reflexivity|]. split; [rewrite H1; reflexivity|exact H2].
Defined.

(** ** get_message, ack_message, send_message outside the generator *)

Lemma get_message_delivery (q : RabbitMQSub) (ch : Channel) (d : delivery)
    (rest : list reply) :
  channel q = Some ch -> inbox ch = deliver (fst d) (snd d) :: rest ->
  get_message q =
  (Return (Some (message_at d)),
   set_channel q (Some (with_calls ch [BasicGet (queue q)] rest))).
Proof.
  intros Hc Hin. unfold get_message, basic_get, take_reply, record. rewrite Hc.
  cbn. rewrite Hin. reflexivity.
Qed.

Lemma get_messages_deliveries (ds : list delivery) :
  forall q ch rest,
    channel q = Some ch -> inbox ch = deliveries_of ds ++ rest ->
    get_messages (List.length ds) q =
    (map (fun d => Return (Some (message_at d))) ds,
     set_channel q
       (Some (with_calls ch (repeat (BasicGet (queue q)) (List.length ds)) rest))).
Proof.
  induction ds as [|d ds IH]; intros q ch rest Hc Hin.
  - cbn. unfold with_calls. cbn in Hin. rewrite app_nil_r, <- Hin.
    destruct q as [a n c ch0 ci p]. cbn in *. subst ch0. destruct ch.
    reflexivity.
  - cbn [List.length get_messages].
    rewrite (get_message_delivery q ch d (deliveries_of ds ++ rest) Hc Hin).
    rewrite (IH (set_channel q (Some (with_calls ch [BasicGet (queue q)]
                                        (deliveries_of ds ++ rest))))
               _ rest eq_refl eq_refl).
    cbn [map]. rewrite set_channel_twice, with_calls_twice. reflexivity.
Qed.

(** X3.  On a connected handle successive calls of [get_message] return the
    broker's deliveries in the order of the stream, each as the message of
    its delivery tag and body, and each call makes one [basic_get] on the
    handle's queue and nothing else: no ack, no nack.  When the broker has
    nothing (no reply left, or an item without a method frame) the call
    returns [None]; an error of the library is raised to the caller; in both
    cases the one [basic_get] is all that was called. *)
Theorem get_message_returns_deliveries_in_order :
  forall (q : RabbitMQSub) (ch : Channel),
    channel q = Some ch ->
    (forall ds rest,
       inbox ch = deliveries_of ds ++ rest ->
       get_messages (List.length ds) q =
       (map (fun d => Return (Some (message_at d))) ds,
        set_channel q
          (Some (with_calls ch (repeat (BasicGet (queue q)) (List.length ds)) rest))))
    /\ (inbox ch = [] ->
        get_message q =
        (Return None, set_channel q (Some (with_calls ch [BasicGet (queue q)] []))))
    /\ (forall it rest, inbox ch = Gives it :: rest -> method_frame it = None ->
        get_message q =
        (Return None, set_channel q (Some (with_calls ch [BasicGet (queue q)] rest))))
    /\ (forall e rest, inbox ch = Fails e :: rest ->
        get_message q =
        (Raise e, set_channel q (Some (with_calls ch [BasicGet (queue q)] rest)))).
Proof.
  intros q ch Hc. split; [|split; [|split]].
  - intros ds rest Hin. exact (get_messages_deliveries ds q ch rest Hc Hin).
  - intros Hin. unfold get_message, basic_get, take_reply, record. rewrite Hc.
    cbn. rewrite Hin. reflexivity.
  - intros it rest Hin Hm. unfold get_message, basic_get, take_reply, record.
    rewrite Hc. cbn. rewrite Hin, Hm. reflexivity.
  - intros e rest Hin. unfold get_message, basic_get, take_reply, record.
    rewrite Hc. cbn. rewrite Hin. reflexivity.
Qed.

Lemma get_message_returns_deliveries_in_order_witness :
  let q := sub_of three_then_timeout in
  channel q = Some {| calls := [BasicQos 1 true];
                      inbox := deliveries three_then_timeout;
                      publish_error := None |} /\
  fst (get_messages 3 q) =
    [Return (Some (mkMessage 0 [])); Return (Some (mkMessage 10 []));
     Return (Some (mkMessage 20 []))] /\
  calls_of (snd (get_messages 3 q)) =
    [BasicQos 1 true; BasicGet "queue"; BasicGet "queue"; BasicGet "queue"].
Proof.
  intros q.
  destruct (get_message_returns_deliveries_in_order q _ eq_refl) as (H & _).
  specialize (H [(mkMethod 0, []); (mkMethod 10, []); (mkMethod 20, [])]
                [Gives no_item] eq_refl).
  cbn [List.length] in H. rewrite H.
  split; [reflexivity|]. split; reflexivity.
Defined.

(** X4.  [ack_message] on a connected handle passes any message id on to
    [basic_ack], whether or not a message with that id was ever delivered,
    and returns; acking the ids of a list one after the other adds exactly
    those acks, in order, takes nothing off the stream and makes no other
    call.  In particular a message obtained by [get_message] and then acked
    leaves the calls [basic_get], [basic_ack] of its delivery tag. *)
Theorem ack_message_forwards_every_id :
  forall (ids : list MessageID) (q : RabbitMQSub) (ch : Channel),
    channel q = Some ch ->
    ack_messages ids q =
      (Return tt, set_channel q (Some (with_calls ch (map BasicAck ids) (inbox ch))))
    /\ (forall d rest, inbox ch = deliver (fst d) (snd d) :: rest ->
        let (r, q1) := get_message q in
        r = Return (Some (message_at d))
        /\ ack_message q1 (msg_id (message_at d)) =
           (Return tt,
            set_channel q
              (Some (with_calls ch [BasicGet (queue q); BasicAck (tag_at d)] rest)))).
Proof.
  intros ids. induction ids as [|id ids IH]; intros q ch Hc.
  - split.
    + cbn. unfold with_calls. rewrite app_nil_r.
      destruct q as [a n c ch0 ci p]. cbn in *. subst ch0. destruct ch.
      reflexivity.
    + intros d rest Hin. rewrite (get_message_delivery q ch d rest Hc Hin).
      split; [reflexivity|]. unfold ack_message. cbn.
      unfold with_calls, basic_ack, record, set_channel. cbn.
      rewrite <- app_assoc. reflexivity.
  - split.
    + cbn [ack_messages]. unfold ack_message at 1. rewrite Hc.
      destruct (IH (set_channel q (Some (basic_ack id ch))) _ eq_refl) as [IH1 _].
      rewrite IH1. rewrite set_channel_twice.
      unfold with_calls, basic_ack, record. cbn. rewrite <- app_assoc.
      reflexivity.
    + intros d rest Hin. rewrite (get_message_delivery q ch d rest Hc Hin).
      split; [reflexivity|]. unfold ack_message. cbn.
      unfold with_calls, basic_ack, record, set_channel. cbn.
      rewrite <- app_assoc. reflexivity.
Qed.

Lemma ack_message_forwards_every_id_witness :
  let q := sub_of empty_queue in
  channel q = Some {| calls := [BasicQos 1 true]; inbox := [];
                      publish_error := None |} /\
  fst (ack_messages [12; 3] q) = Return tt /\
  calls_of (snd (ack_messages [12; 3] q)) =
    [BasicQos 1 true; BasicAck 12; BasicAck 3].
Proof.
  intros q.
  destruct (ack_message_forwards_every_id [12; 3] q _ eq_refl) as (H & _).
  rewrite H. split; [reflexivity|]. split; reflexivity.
Defined.

(** X5.  [create_pub_queue] either fails with the library's connection
    error or returns a handle for the given address and queue name on an
    open connection of its own, whose channel has received exactly two
    calls, in this order: [queue_declare] of the queue as not durable, then
    [confirm_delivery].  Messages sent on the returned handle are published
    after both. *)
Theorem create_pub_queue_declares_then_confirms :
  forall (pika : Pika) (addr name : string),
    create_pub_queue pika addr name =
      match connect_error pika with
      | Some e => Raise e
      | None =>
          Return {| address := addr; queue := name;
                    connection := Some {| parameters := addr; is_closed := false;
                                          is_closing := false |};
                    channel := Some {| calls := [QueueDeclare name false;
                                                 ConfirmDelivery];
                                       inbox := deliveries pika;
                                       publish_error := publish_reply pika |};
                    consumer_id := None; prefetch := 1 |}
      end
    /\ (forall q msg, create_pub_queue pika addr name = Return q ->
          calls_of (snd (send_message q msg)) =
          [QueueDeclare name false; ConfirmDelivery; BasicPublish "" name msg]).
Proof.
  intros pika addr name.
  assert (H : create_pub_queue pika addr name =
      match connect_error pika with
      | Some e => Raise e
      | None =>
          Return {| address := addr; queue := name;
                    connection := Some {| parameters := addr; is_closed := false;
                                          is_closing := false |};
                    channel := Some {| calls := [QueueDeclare name false;
                                                 ConfirmDelivery];
                                       inbox := deliveries pika;
                                       publish_error := publish_reply pika |};
                    consumer_id := None; prefetch := 1 |}
      end).
  { unfold create_pub_queue, RabbitMQPub_connect, RabbitMQ_connect.
    destruct (connect_error pika); reflexivity. }
  split; [exact H|].
  intros q msg Hq. rewrite H in Hq.
  destruct (connect_error pika); [discriminate|].
  inversion Hq; subst. unfold send_message, basic_publish. cbn.
  destruct (publish_reply pika); reflexivity.
Qed.

Lemma create_pub_queue_declares_then_confirms_witness :
  create_pub_queue accepting "localhost" "queue" = Return (pub_of accepting) /\
  calls_of (snd (send_message (pub_of accepting) [])) =
    [QueueDeclare "queue" false; ConfirmDelivery; BasicPublish "" "queue" []].
Proof.
  destruct (create_pub_queue_declares_then_confirms accepting "localhost" "queue")
    as [_ H].
  split; [reflexivity|]. exact (H (pub_of accepting) [] eq_refl).
Defined.

(** X6.  On a connected handle whose library accepts publishes, messages
    sent one after the other are all published, in the order sent, each to
    the default exchange with the handle's queue name as routing key and
    its body unchanged, and nothing else is called.  Where the library
    raises on publish, the first [send_message] raises that error, after
    the one publish it attempted, and the caller's loop sends no more. *)
Theorem send_message_publishes_in_order :
  forall (msgs : list bytes) (q : RabbitMQPub) (ch : Channel),
    channel q = Some ch ->
    (publish_error ch = None ->
       send_messages msgs q =
       (Return tt,
        set_channel q
          (Some (with_calls ch (map (BasicPublish "" (queue q)) msgs) (inbox ch)))))
    /\ (forall e msg, publish_error ch = Some e ->
       send_messages (msg :: msgs) q =
       (Raise e,
        set_channel q
          (Some (with_calls ch [BasicPublish "" (queue q) msg] (inbox ch))))).
Proof.
  intros msgs. induction msgs as [|msg msgs IH]; intros q ch Hc.
  - split.
    + intros _. cbn. unfold with_calls. rewrite app_nil_r.
      destruct q as [a n c ch0 ci p]. cbn in *. subst ch0. destruct ch.
      reflexivity.
    + intros e msg He. cbn. unfold send_message, basic_publish. rewrite Hc, He.
      reflexivity.
  - split.
    + intros Hp. cbn [send_messages]. unfold send_message at 1, basic_publish.
      rewrite Hc, Hp.
      destruct (IH (set_channel q
                      (Some (record (BasicPublish "" (queue q) msg) ch)))
                  _ eq_refl) as [IH1 _].
      rewrite (IH1 Hp). rewrite set_channel_twice.
      unfold with_calls, record. cbn. rewrite <- app_assoc. reflexivity.
    + intros e msg0 He. cbn [send_messages].
      unfold send_message at 1, basic_publish. rewrite Hc, He. reflexivity.
Qed.

Lemma send_message_publishes_in_order_witness :
  let q := pub_of accepting in
  let a := [Byte.x61] in
  let b := [Byte.x62] in
  channel q = Some {| calls := [QueueDeclare "queue" false; ConfirmDelivery];
                      inbox := []; publish_error := None |} /\
  fst (send_messages [a; b] q) = Return tt /\
  calls_of (snd (send_messages [a; b] q)) =
    [QueueDeclare "queue" false; ConfirmDelivery;
     BasicPublish "" "queue" a; BasicPublish "" "queue" b].
Proof.
  intros q a b.
  destruct (send_message_publishes_in_order [a; b] q _ eq_refl) as [H _].
  rewrite (H eq_refl). split; [reflexivity|]. split; reflexivity.
Defined.

(** ** close and connect *)

(** X7.  [close] is idempotent and touches nothing but the connection: the
    address, the queue name, the channel with its calls, the consumer id and
    the prefetch stay as they were.  On a handle that was never connected,
    or whose connection is already closed or closing, it does nothing; on an
    open connection it closes it. *)
Theorem close_is_idempotent :
  forall (q : RabbitMQ),
    close (close q) = close q
    /\ address (close q) = address q
    /\ queue (close q) = queue q
    /\ channel (close q) = channel q
    /\ consumer_id (close q) = consumer_id q
    /\ prefetch (close q) = prefetch q
    /\ (connection q = None -> close q = q)
    /\ (forall c, connection q = Some c ->
          (is_closed c || is_closing c = true -> close q = q)
          /\ (is_closed c || is_closing c = false -> closed_handle (close q) = true)).
Proof.
  intros q. unfold close, closed_handle.
  destruct (connection q) as [c|] eqn:Hconn.
  - destruct (is_closed c) eqn:H1; destruct (is_closing c) eqn:H2; cbn;
      rewrite ?Hconn, ?H1, ?H2; cbn;
      repeat match goal with |- _ /\ _ => split end;
      try reflexivity; try discriminate;
      intros c' Hc'; inversion Hc'; subst; rewrite ?H1, ?H2; cbn;
      split; intros; try reflexivity; try discriminate.
  - rewrite Hconn. repeat match goal with |- _ /\ _ => split end;
      try reflexivity. intros c Hc. discriminate.
Qed.

Lemma close_is_idempotent_witness :
  let q := pub_of accepting in
  connection q = Some {| parameters := "localhost"; is_closed := false;
                         is_closing := false |} /\
  closed_handle q = false /\
  closed_handle (close q) = true /\
  close (close q) = close q /\
  channel (close q) = channel q.
Proof.
  intros q.
  destruct (close_is_idempotent q) as (H1 & _ & _ & H2 & _ & _ & _ & H3).
  destruct (H3 _ eq_refl) as [_ H4].
  split; [reflexivity|]. split; [reflexivity|].
  split; [exact (H4 eq_refl)|]. split; [exact H1|exact H2].
Defined.

Lemma close_keeps_fields (q : RabbitMQ) :
  address (close q) = address q /\ queue (close q) = queue q
  /\ consumer_id (close q) = consumer_id q /\ prefetch (close q) = prefetch q.
Proof.
  unfold close. destruct (connection q) as [c|]; [|repeat split].
  destruct (negb (is_closed c) && negb (is_closing c)); repeat split.
Qed.

Lemma step_handle (a : action) (g : generator) (q : RabbitMQSub) :
  forall o g1 q1, step a g q = (o, g1, q1) ->
    address q1 = address q /\ queue q1 = queue q
    /\ connection q1 = connection q /\ consumer_id q1 = consumer_id q
    /\ prefetch q1 = prefetch q
    /\ (channel q = None <-> channel q1 = None)
    /\ (exists new, calls_of q1 = calls_of q ++ new)
    /\ (exists taken, inbox_of q = taken ++ inbox_of q1
                      /\ (List.length taken <= 1)%nat).
Proof.
  intros o g1 q1. unfold_step.
  destruct a; destruct (gen_frame g) eqn:Hf; destruct (channel q) eqn:Hc.
  all: cbn; intros H; case_split_in H.
  all: inversion H; subst; clear H; cbn; rewrite ?Hc; cbn.
  all: repeat rewrite <- app_assoc.
  all: repeat match goal with
              | |- _ /\ _ => split
              | |- _ <-> _ => split
              end.
  all: try reflexivity; try congruence; try discriminate.
  all: try (intros; discriminate).
  all: try (exists []; rewrite app_nil_r; reflexivity).
  all: try (exists []; split; [reflexivity|cbn; lia]).
  all: try (eexists; reflexivity).
  all: try match goal with
       | |- exists t, ?r :: ?l = t ++ ?l /\ _ =>
           exists [r]; split; [reflexivity|cbn; lia]
       end.
  all: try (exists []; split; [cbn; rewrite ?Hc; cbn; congruence|cbn; lia]).
  all: exists []; split; [|cbn; lia].
  all: match goal with Hn : channel _ = None |- _ => rewrite Hn end; reflexivity.
Qed.

Lemma run_handle (script : list action) :
  forall g q,
    let q' := handle_of (run script g q) in
    address q' = address q /\ queue q' = queue q
    /\ connection q' = connection q /\ consumer_id q' = consumer_id q
    /\ prefetch q' = prefetch q
    /\ (channel q = None <-> channel q' = None)
    /\ (exists new, calls_of q' = calls_of q ++ new)
    /\ (exists taken, inbox_of q = taken ++ inbox_of q'
                      /\ (List.length taken <= List.length script)%nat).
Proof.
  induction script as [|a script IH]; intros g q q'.
  - subst q'. cbn. repeat match goal with |- _ /\ _ => split end;
      try reflexivity.
    + exists []. rewrite app_nil_r. reflexivity.
    + exists []. split; [reflexivity|cbn; lia].
  - subst q'. rewrite run_cons.
    destruct (step a g q) as [[o g1] q1] eqn:Hs.
    destruct (step_handle a g q _ _ _ Hs)
      as (Ha & Hq & Hcn & Hci & Hp & Hch & (new1 & Hnew1) & (t1 & Ht1 & Hl1)).
    specialize (IH g1 q1). cbv zeta in IH.
    destruct (run script g1 q1) as [[tr g2] q2].
    unfold handle_of in *. cbn [snd] in *.
    destruct IH as (Ha2 & Hq2 & Hcn2 & Hci2 & Hp2 & Hch2 & (new2 & Hnew2)
                    & (t2 & Ht2 & Hl2)).
    repeat match goal with |- _ /\ _ => split end; try congruence.
    + rewrite Hch. exact Hch2.
    + exists (new1 ++ new2). rewrite Hnew2, Hnew1, app_assoc. reflexivity.
    + exists (t1 ++ t2). split.
      * rewrite Ht1, Ht2, app_assoc. reflexivity.
      * rewrite length_app. cbn [List.length]. lia.
Qed.

(** X8.  Whatever the caller does with the generator, the handle keeps its
    address, queue name, connection, consumer id and prefetch; a channel
    that is set stays set and one that is unset stays unset; calls already
    made on the channel stay as they are and new ones come after them; and
    replies are taken off the front of the stream only, at most one for
    each call the caller makes on the generator.  In particular the
    [consumer_id] that the constructor sets to [None] is never given a
    value. *)
Theorem generator_run_keeps_handle :
  forall (script : list action) (g : generator) (q : RabbitMQSub),
    let q' := handle_of (run script g q) in
    address q' = address q /\ queue q' = queue q
    /\ connection q' = connection q /\ consumer_id q' = consumer_id q
    /\ prefetch q' = prefetch q
    /\ (channel q = None <-> channel q' = None)
    /\ (exists new, calls_of q' = calls_of q ++ new)
    /\ (exists taken, inbox_of q = taken ++ inbox_of q'
                      /\ (List.length taken <= List.length script)%nat).
Proof. exact run_handle. Qed.

(** X9.  Closing a subscriber's handle and connecting it again gives back
    the handle exactly as [create_sub_queue] first returned it, whatever was
    done with a generator on it in between: the prefetch the handle carries
    is applied again with [basic_qos] on the new channel, and nothing of the
    old channel (its calls, the rest of its stream) is kept. *)
Theorem close_then_connect_restores_sub_handle :
  forall (pika : Pika) (addr name : string) (p : option Z) (q : RabbitMQSub)
         (script : list action) (g : generator),
    create_sub_queue pika addr name p = Return q ->
    RabbitMQSub_connect pika (close (handle_of (run script g q))) = (Return tt, q)
    /\ RabbitMQSub_connect pika (close q) = (Return tt, q).
Proof.
  intros pika addr name p q script g Hq.
  assert (Hgen : forall q', address q' = address q -> queue q' = queue q ->
            consumer_id q' = consumer_id q -> prefetch q' = prefetch q ->
            RabbitMQSub_connect pika (close q') = (Return tt, q)).
  { intros q' Ha Hn Hci Hp.
    destruct (close_keeps_fields q') as (Ha' & Hn' & Hci' & Hp').
    unfold create_sub_queue, RabbitMQSub_connect, RabbitMQ_connect in *.
    destruct (connect_error pika); [discriminate|].
    cbn in Hq. inversion Hq; subst q; clear Hq. cbn in *.
    unfold on_channel, set_channel, basic_qos, record. cbn.
    rewrite Ha', Hn', Hci', Hp', Ha, Hn, Hci, Hp. reflexivity. }
  split.
  - destruct (run_handle script g q) as (Ha & Hn & _ & Hci & Hp & _).
    apply Hgen; assumption.
  - apply Hgen; reflexivity.
Qed.

Lemma close_then_connect_restores_sub_handle_witness :
  let q := sub_of three_then_timeout in
  let used := handle_of (run [next; next] (message_generator 1 None None) q) in
  create_sub_queue three_then_timeout "localhost" "queue" None = Return q /\
  calls_of used = [BasicQos 1 true; Consume "queue" 1; BasicAck 0] /\
  RabbitMQSub_connect three_then_timeout (close used) = (Return tt, q).
Proof.
  intros q used.
  destruct (close_then_connect_restores_sub_handle three_then_timeout
              "localhost" "queue" None q [next; next]
              (message_generator 1 None None) eq_refl) as [H _].
  split; [reflexivity|]. split; [reflexivity|exact H].
Defined.

(** ** More on the acks and nacks of a run *)

(** X10.  With [auto_ack] off the generator never acks: in every run the
    acks on the channel are those that were there before.  Nacks are issued
    as with [auto_ack] on: exactly for the messages at whose yield the
    caller raised an exception. *)
Theorem manual_ack_generator_never_acks :
  forall (g : generator) (q : RabbitMQSub) (script : list action),
    gen_frame g = Created ->
    auto_ack g = false ->
    let r := run script g q in
    acks (calls_of (handle_of r)) = acks (calls_of q)
    /\ nacks (calls_of (handle_of r)) =
       nacks (calls_of q) ++ answered raises_exception None (trace_of r).
Proof.
  intros g q script Hf Hack r.
  pose proof (run_eta script g q) as Hrun. fold r in Hrun.
  pose proof (attached_Created g q Hf) as Hat.
  split.
  - exact (run_acks_manual script g q Hat Hack _ _ _ Hrun).
  - pose proof (run_nacks script g q Hat _ _ _ Hrun) as H.
    rewrite (inflight_Created g Hf) in H. exact H.
Qed.

Lemma manual_ack_generator_never_acks_witness :
  let g := message_generator 1 (Some false) None in
  let q := sub_of three_then_timeout in
  let r := run [next; next; next; next] g q in
  gen_frame g = Created /\ auto_ack g = false /\
  yielded (trace_of r) = [mkMessage 0 []; mkMessage 10 []; mkMessage 20 []] /\
  acks (calls_of (handle_of r)) = [] /\
  calls_of (handle_of r) = [BasicQos 1 true; Consume "queue" 1; Cancel].
Proof.
  intros g q r.
  destruct (manual_ack_generator_never_acks g q [next; next; next; next]
              eq_refl eq_refl) as [H _].
  split; [reflexivity|]. split; [reflexivity|]. split; [reflexivity|].
  split; [exact H|reflexivity].
Defined.

Lemma answered_incl (which : action -> bool) (tr : list (action * outcome)) :
  forall t0 t, In t (answered which t0 tr) ->
    In t (tag_list t0 ++ map msg_id (yielded tr)).
Proof.
  induction tr as [|[a o] tr IH]; intros t0 t Hin.
  - cbn in Hin. contradiction.
  - rewrite answered_cons in Hin. apply in_app_or in Hin.
    destruct Hin as [Hin|Hin].
    + cbn in Hin. apply in_or_app. left.
      destruct t0 as [t'|]; [|contradiction].
      destruct (which a); [|contradiction]. rewrite app_nil_r in Hin. exact Hin.
    + apply IH in Hin. rewrite yielded_cons. apply in_or_app. right. exact Hin.
Qed.

Lemma answered_disjoint_length (w1 w2 : action -> bool)
    (tr : list (action * outcome)) :
  (forall a, w1 a && w2 a = false) ->
  forall t0,
    (List.length (answered w1 t0 tr) + List.length (answered w2 t0 tr) <=
     List.length (tag_list t0) + List.length (yielded tr))%nat.
Proof.
  intros Hdis. induction tr as [|[a o] tr IH]; intros t0.
  - cbn. lia.
  - rewrite (answered_cons w1 t0 a o tr), (answered_cons w2 t0 a o tr), !length_app.
    specialize (IH (in_flight_after o)).
    assert (Hy : List.length (yielded ((a, o) :: tr)) =
                 (List.length (tag_list (in_flight_after o))
                  + List.length (yielded tr))%nat).
    { rewrite <- (length_map msg_id), yielded_cons, length_app, length_map.
      reflexivity. }
    rewrite Hy. specialize (Hdis a). cbn.
    destruct t0 as [t'|]; cbn; [|lia].
    destruct (w1 a), (w2 a); cbn; try discriminate; lia.
Qed.

(** X11.  The generator acks and nacks only messages it has handed out, and
    gives each of them at most one answer: in every run, with either setting
    of [auto_ack] and [propagate_error], every ack and every nack added to
    the channel carries the id of a message yielded in that run, and the
    acks and nacks added are together no more than the messages yielded. *)
Theorem acks_and_nacks_only_for_yielded_messages :
  forall (g : generator) (q : RabbitMQSub) (script : list action),
    gen_frame g = Created ->
    let r := run script g q in
    exists new_acks new_nacks,
      acks (calls_of (handle_of r)) = acks (calls_of q) ++ new_acks
      /\ nacks (calls_of (handle_of r)) = nacks (calls_of q) ++ new_nacks
      /\ (forall t, In t new_acks -> In t (map msg_id (yielded (trace_of r))))
      /\ (forall t, In t new_nacks -> In t (map msg_id (yielded (trace_of r))))
      /\ (List.length new_acks + List.length new_nacks <=
          List.length (yielded (trace_of r)))%nat.
Proof.
  intros g q script Hf r.
  pose proof (run_eta script g q) as Hrun. fold r in Hrun.
  pose proof (attached_Created g q Hf) as Hat.
  pose proof (run_nacks script g q Hat _ _ _ Hrun) as Hn.
  rewrite (inflight_Created g Hf) in Hn.
  assert (Hdis : forall a, returns_normally a && raises_exception a = false)
    by (intros [|e|]; reflexivity).
  pose proof (answered_disjoint_length returns_normally raises_exception
                (trace_of r) Hdis None) as Hlen. cbn [tag_list List.length] in Hlen.
  destruct (auto_ack g) eqn:Hack.
  - pose proof (run_acks script g q Hat Hack _ _ _ Hrun) as Ha.
    rewrite (inflight_Created g Hf) in Ha.
    exists (answered returns_normally None (trace_of r)),
           (answered raises_exception None (trace_of r)).
    split; [exact Ha|]. split; [exact Hn|].
    split; [intros t Ht; exact (answered_incl _ _ None t Ht)|].
    split; [intros t Ht; exact (answered_incl _ _ None t Ht)|].
    lia.
  - pose proof (run_acks_manual script g q Hat Hack _ _ _ Hrun) as Ha.
    exists [], (answered raises_exception None (trace_of r)).
    split; [rewrite app_nil_r; exact Ha|]. split; [exact Hn|].
    split; [intros t Ht; contradiction|].
    split; [intros t Ht; exact (answered_incl _ _ None t Ht)|].
    cbn [List.length]. lia.
Qed.

Lemma acks_and_nacks_only_for_yielded_messages_witness :
  let g := message_generator 1 None (Some false) in
  let q := sub_of three_then_timeout in
  let r := run [next; throw (OtherException "TestException"); next] g q in
  gen_frame g = Created /\
  map msg_id (yielded (trace_of r)) = [0; 10; 20] /\
  acks (calls_of (handle_of r)) = [10] /\
  nacks (calls_of (handle_of r)) = [0] /\
  exists new_acks new_nacks,
    acks (calls_of (handle_of r)) = acks (calls_of q) ++ new_acks
    /\ nacks (calls_of (handle_of r)) = nacks (calls_of q) ++ new_nacks
    /\ (List.length new_acks + List.length new_nacks <= 3)%nat.
Proof.
  intros g q r.
  destruct (acks_and_nacks_only_for_yielded_messages g q
              [next; throw (OtherException "TestException"); next] eq_refl)
    as (na & nn & Ha & Hn & _ & _ & Hl).
  split; [reflexivity|]. split; [reflexivity|]. split; [reflexivity|].
  split; [reflexivity|]. exists na, nn.
  split; [exact Ha|]. split; [exact Hn|exact Hl].
Defined.

(** ** A caller that iterates to the end of the stream *)

Lemma acked_first_same (g g1 : generator) (m : Method) :
  auto_ack g1 = auto_ack g -> acked_first g1 m = acked_first g m.
Proof. unfold acked_first. intros ->. reflexivity. Qed.

Lemma acks_for_same (g g1 : generator) (ds : list delivery) :
  auto_ack g1 = auto_ack g -> acks_for g1 ds = acks_for g ds.
Proof.
  intros H. unfold acks_for. induction ds as [|d ds IH]; [reflexivity|].
  cbn. rewrite IH, (acked_first_same g g1 (fst d) H). reflexivity.
Qed.

Lemma acks_for_by_flag (g : generator) (ds : list delivery) :
  acks_for g ds =
  if auto_ack g then map (fun d => BasicAck (tag_at d)) ds else [].
Proof.
  unfold acks_for, acked_first, tag_at.
  destruct (auto_ack g); induction ds as [|d ds IH]; cbn; try reflexivity;
    try (rewrite IH; reflexivity); try exact IH.
Qed.

Lemma run_until_no_method (ds : list delivery) :
  forall g q ch it rest,
    gen_frame g <> Finished ->
    channel q = Some ch ->
    inbox ch = deliveries_of ds ++ Gives it :: rest ->
    method_frame it = None ->
    let r := run (repeat next (S (List.length ds))) g q in
    trace_of r = returned ds ++ [(next, Raised StopIteration)]
    /\ calls_of (handle_of r) =
       calls ch ++ on_entry g q ++ acks_for g ds ++ [Cancel]
    /\ inbox_of (handle_of r) = rest
    /\ gen_frame (generator_of r) = Finished.
Proof.
  induction ds as [|d ds IH]; intros g q ch it rest Hf Hc Hin Hm r.
  - subst r. cbn [List.length repeat run step]. cbn in Hin.
    unfold on_entry, acks_for. cbn [flat_map app].
    destruct (gen_frame g) as [|m|] eqn:Hfr; [| |congruence].
    + rewrite (gen_next_Created g q ch Hfr Hc).
      rewrite (next_item_no_method g _ (consume (queue q) (timeout g) ch) it rest);
        try reflexivity; try assumption.
      unfold trace_of, handle_of, generator_of, calls_of. cbn.
      rewrite <- app_assoc. repeat split.
    + rewrite (gen_next_AtYield_calls g q ch m Hfr Hc).
      rewrite (next_item_no_method g _ (with_calls ch (acked_first g m) (inbox ch))
                 it rest); try reflexivity; try assumption.
      unfold trace_of, handle_of, generator_of, calls_of. cbn.
      rewrite <- app_assoc. repeat split.
  - subst r. cbn [List.length repeat]. rewrite run_cons.
    destruct (step next g q) as [[o g1] q1] eqn:Hs.
    assert (Hcn : channel q <> None) by congruence.
    assert (Hat : attached g q).
    { unfold attached. destruct (gen_frame g); auto. }
    assert (Hinq : inbox_of q =
                   deliver (fst d) (snd d) :: (deliveries_of ds ++ Gives it :: rest)).
    { unfold inbox_of. rewrite Hc. exact Hin. }
    destruct (step_issued next g q Hat _ _ _ Hs)
      as (Hcalls & _ & _ & (_ & Hack & _) & Hqueue & _).
    destruct (step_next_delivery g q (fst d) (snd d) _ Hcn Hf Hinq _ _ _ Hs)
      as (Ho & Hf1 & Hin1 & Hc1).
    destruct (channel q1) as [ch1|] eqn:Hch1; [|congruence].
    assert (Hin1' : inbox ch1 = deliveries_of ds ++ Gives it :: rest).
    { unfold inbox_of in Hin1. rewrite Hch1 in Hin1. exact Hin1. }
    assert (Hf1' : gen_frame g1 <> Finished) by (rewrite Hf1; discriminate).
    pose proof (IH g1 q1 ch1 it rest Hf1' Hch1 Hin1' Hm) as IH1.
    cbv zeta in IH1.
    change (next :: repeat next (List.length ds))
      with (repeat next (S (List.length ds))).
    destruct (run (repeat next (S (List.length ds))) g1 q1) as [[tr g2] q2].
    unfold trace_of, handle_of, generator_of in *. cbn [fst snd] in *.
    destruct IH1 as (Htr & Hcalls2 & Hin2 & Hf2).
    subst o.
    repeat match goal with |- _ /\ _ => split end; try assumption.
    { rewrite Htr. reflexivity. }
    rewrite Hcalls2.
    assert (Hch1calls : calls ch1 = calls ch ++ on_entry g q).
    { unfold calls_of in Hcalls. rewrite Hc, Hch1 in Hcalls. rewrite Hcalls.
      unfold issued, on_entry, acked_first.
      destruct (gen_frame g) as [|m|]; [| |congruence].
      - rewrite Hc. reflexivity.
      - cbn. rewrite app_nil_r. reflexivity. }
    rewrite Hch1calls.
    unfold on_entry at 2. rewrite Hf1.
    rewrite (acked_first_same g g1 (fst d) Hack), (acks_for_same g g1 ds Hack).
    unfold acks_for. cbn [flat_map]. rewrite <- !app_assoc. reflexivity.
Qed.

(** X12.  When the broker delivers the messages [ds] and then reports
    inactivity (an item without a method frame), a caller that starts the
    generator on a connected handle and calls [next] until it ends is handed
    the messages of [ds] in order and then [StopIteration], and the calls
    made on the channel are, in this order and nothing else: one [consume]
    on the handle's queue with the given timeout, with [auto_ack] on one
    [basic_ack] for each message in the order delivered (none with
    [auto_ack] off), and one [cancel]. *)
Theorem full_iteration_consumes_acks_and_cancels :
  forall (g : generator) (q : RabbitMQSub) (ch : Channel) (ds : list delivery)
         (it : Item) (rest : list reply),
    gen_frame g = Created ->
    channel q = Some ch ->
    inbox ch = deliveries_of ds ++ Gives it :: rest ->
    method_frame it = None ->
    let r := run (repeat next (S (List.length ds))) g q in
    map snd (trace_of r) =
      map (fun d => Yielded (message_at d)) ds ++ [Raised StopIteration]
    /\ calls_of (handle_of r) =
       calls ch ++ Consume (queue q) (timeout g) ::
         (if auto_ack g then map (fun d => BasicAck (tag_at d)) ds else [])
         ++ [Cancel]
    /\ inbox_of (handle_of r) = rest
    /\ gen_frame (generator_of r) = Finished.
Proof.
  intros g q ch ds it rest Hf Hc Hin Hm r.
  assert (Hnf : gen_frame g <> Finished) by (rewrite Hf; discriminate).
  destruct (run_until_no_method ds g q ch it rest Hnf Hc Hin Hm)
    as (Htr & Hcalls & Hin' & Hfin).
  fold r in Htr, Hcalls, Hin', Hfin.
  repeat match goal with |- _ /\ _ => split end; try assumption.
  - rewrite Htr, map_app. unfold returned. rewrite map_map. reflexivity.
  - rewrite Hcalls. unfold on_entry. rewrite Hf, (acks_for_by_flag g ds).
    reflexivity.
Qed.

Lemma full_iteration_consumes_acks_and_cancels_witness :
  let g := message_generator 1 None None in
  let q := sub_of three_then_timeout in
  let r := run [next; next; next; next] g q in
  (gen_frame g = Created /\ method_frame no_item = None) /\
  map snd (trace_of r) =
    [Yielded (mkMessage 0 []); Yielded (mkMessage 10 []);
     Yielded (mkMessage 20 []); Raised StopIteration] /\
  calls_of (handle_of r) =
    [BasicQos 1 true; Consume "queue" 1; BasicAck 0; BasicAck 10;
     BasicAck 20; Cancel].
Proof.
  intros g q r.
  destruct (full_iteration_consumes_acks_and_cancels g q
              {| calls := [BasicQos 1 true];
                 inbox := deliveries three_then_timeout;
                 publish_error := None |}
              [(mkMethod 0, []); (mkMethod 10, []); (mkMethod 20, [])]
              no_item [] eq_refl eq_refl eq_refl eq_refl) as (H1 & H2 & _).
  split; [split; reflexivity|]. split; [exact H1|exact H2].
Defined.

(** X13.  A generator that the caller closes, or throws an exception into,
    before its first [next] never runs its body: whatever the caller does
    with it afterwards, no call is made on the channel (no consumer is
    started, so none is cancelled), nothing is taken off the stream, no
    message is yielded, and every later [next] gets [StopIteration].  This
    holds on a connected handle as well as on one that is not. *)
Theorem unstarted_generator_never_touches_broker :
  forall (g : generator) (q : RabbitMQSub) (a : action) (script : list action),
    gen_frame g = Created ->
    a <> next ->
    let r := run (a :: script) g q in
    handle_of r = q
    /\ yielded (trace_of r) = []
    /\ gen_frame (generator_of r) = Finished
    /\ (forall a' o, In (a', o) (tl (trace_of r)) -> a' = next ->
          o = Raised StopIteration).
Proof.
  intros g q a script Hf Ha r. subst r. rewrite run_cons.
  assert (Hs : exists o, step a g q = (o, set_frame g Finished, q)
                         /\ match o with Yielded _ => False | _ => True end).
  { unfold step, gen_throw, gen_close. rewrite Hf.
    destruct a as [|e|]; [congruence| |]; eexists; split; try reflexivity; exact I. }
  destruct Hs as (o & Hs & Ho). rewrite Hs.
  destruct (finished_run script (set_frame g Finished) q eq_refl)
    as (Hg & Hq & Hy).
  assert (Hnext : forall s g0 q0, gen_frame g0 = Finished ->
            forall a' o', In (a', o') (trace_of (run s g0 q0)) -> a' = next ->
              o' = Raised StopIteration).
  { clear. induction s as [|a s IH]; intros g0 q0 Hf0 a' o' Hin Ha'.
    - cbn in Hin. contradiction.
    - rewrite run_cons in Hin.
      assert (Hst : exists o, step a g0 q0 = (o, g0, q0)
                    /\ (a = next -> o = Raised StopIteration)).
      { unfold step, gen_next, gen_throw, gen_close. rewrite Hf0.
        destruct a as [|e|]; cbn; eexists; split; try reflexivity;
          intros; try discriminate; reflexivity. }
      destruct Hst as (o & Hst & Hon). rewrite Hst in Hin.
      specialize (IH g0 q0 Hf0 a' o').
      destruct (run s g0 q0) as [[tr g2] q2]. unfold trace_of in *.
      cbn [fst] in *. destruct Hin as [Heq|Hin].
      + inversion Heq; subst. exact (Hon eq_refl).
      + exact (IH Hin Ha'). }
  specialize (Hnext script (set_frame g Finished) q eq_refl).
  destruct (run script (set_frame g Finished) q) as [[tr g2] q2].
  unfold trace_of, handle_of, generator_of in *. cbn [fst snd tl] in *.
  subst. repeat match goal with |- _ /\ _ => split end; try reflexivity.
  - rewrite yielded_step, Hy. destruct o; [contradiction|reflexivity..].
  - exact Hnext.
Qed.

Lemma unstarted_generator_never_touches_broker_witness :
  let g := message_generator 1 None None in
  let q := sub_of three_then_timeout in
  let r := run [close_gen; next; next] g q in
  (gen_frame g = Created /\ close_gen <> next) /\
  handle_of r = q /\
  map snd (trace_of r) = [Closed; Raised StopIteration; Raised StopIteration].
Proof.
  intros g q r.
  assert (Hne : close_gen <> next) by discriminate.
  destruct (unstarted_generator_never_touches_broker g q close_gen [next; next]
              eq_refl Hne) as (H & _).
  split; [split; [reflexivity|exact Hne]|]. split; [exact H|reflexivity].
Defined.

(** ** get_message and the generator on one stream *)

(** X14.  Messages taken one by one with [get_message] and the messages
    then taken with the generator are together the broker's deliveries, in
    order, none lost and none twice: after [get_message] has returned the
    messages of [ds1], a generator iterated to the end yields the messages
    of [ds2] that follow them.  The generator acks, with [auto_ack] on, only
    the messages it yielded itself: the messages obtained by [get_message]
    are left unacked. *)
Theorem get_message_then_generator_share_the_stream :
  forall (g : generator) (q : RabbitMQSub) (ch : Channel)
         (ds1 ds2 : list delivery) (it : Item) (rest : list reply),
    gen_frame g = Created ->
    channel q = Some ch ->
    inbox ch = deliveries_of (ds1 ++ ds2) ++ Gives it :: rest ->
    method_frame it = None ->
    let got := get_messages (List.length ds1) q in
    let r := run (repeat next (S (List.length ds2))) g (snd got) in
    fst got = map (fun d => Return (Some (message_at d))) ds1
    /\ yielded (trace_of r) = map message_at ds2
    /\ calls_of (handle_of r) =
       calls ch ++ repeat (BasicGet (queue q)) (List.length ds1)
         ++ Consume (queue q) (timeout g) ::
            (if auto_ack g then map (fun d => BasicAck (tag_at d)) ds2 else [])
         ++ [Cancel]
    /\ inbox_of (handle_of r) = rest.
Proof.
  intros g q ch ds1 ds2 it rest Hf Hc Hin Hm got r.
  assert (Hin1 : inbox ch = deliveries_of ds1 ++ (deliveries_of ds2 ++ Gives it :: rest)).
  { rewrite Hin. unfold deliveries_of. rewrite map_app, <- app_assoc. reflexivity. }
  pose proof (get_messages_deliveries ds1 q ch _ Hc Hin1) as Hgot.
  fold got in Hgot.
  assert (Hnf : gen_frame g <> Finished) by (rewrite Hf; discriminate).
  assert (Hr : r = run (repeat next (S (List.length ds2))) g (snd got)) by reflexivity.
  rewrite Hgot in Hr. cbn [snd] in Hr.
  destruct (run_until_no_method ds2 g
              (set_channel q
                 (Some (with_calls ch (repeat (BasicGet (queue q)) (List.length ds1))
                          (deliveries_of ds2 ++ Gives it :: rest))))
              (with_calls ch (repeat (BasicGet (queue q)) (List.length ds1))
                 (deliveries_of ds2 ++ Gives it :: rest))
              it rest Hnf eq_refl eq_refl Hm) as (Htr & Hcalls & Hin' & _).
  rewrite <- Hr in Htr, Hcalls, Hin'.
  split; [rewrite Hgot; reflexivity|].
  split; [|split; [|exact Hin']].
  - rewrite Htr. unfold yielded, returned.
    rewrite flat_map_app. cbn. rewrite app_nil_r.
    clear. induction ds2 as [|d ds IH]; [reflexivity|]. cbn. rewrite IH. reflexivity.
  - rewrite Hcalls. unfold on_entry. rewrite Hf, (acks_for_by_flag g ds2).
    cbn. rewrite <- app_assoc. reflexivity.
Qed.

Lemma get_message_then_generator_share_the_stream_witness :
  let g := message_generator 1 None None in
  let q := sub_of three_then_timeout in
  let got := get_messages 1 q in
  let r := run [next; next; next] g (snd got) in
  (gen_frame g = Created /\ method_frame no_item = None) /\
  fst got = [Return (Some (mkMessage 0 []))] /\
  yielded (trace_of r) = [mkMessage 10 []; mkMessage 20 []] /\
  calls_of (handle_of r) =
    [BasicQos 1 true; BasicGet "queue"; Consume "queue" 1; BasicAck 10;
     BasicAck 20; Cancel].
Proof.
  intros g q got r.
  destruct (get_message_then_generator_share_the_stream g q
              {| calls := [BasicQos 1 true];
                 inbox := deliveries three_then_timeout;
                 publish_error := None |}
              [(mkMethod 0, [])] [(mkMethod 10, []); (mkMethod 20, [])]
              no_item [] eq_refl eq_refl eq_refl eq_refl) as (H1 & H2 & H3 & _).
  split; [split; reflexivity|].
  split; [exact H1|]. split; [exact H2|exact H3].
Defined.

Lemma run_takes_what_it_yields (script : list action) :
  forall g q, attached g q ->
  forall tr g' q', run script g q = (tr, g', q') ->
    exists its fin,
      inbox_of q = map Gives its ++ fin ++ inbox_of q'
      /\ map message_of its = map Some (yielded tr)
      /\ (List.length fin <= 1)%nat
      /\ (fin <> [] -> gen_frame g' = Finished).
Proof.
  induction script as [|a script IH]; intros g q Hat tr g' q' Hrun.
  - cbn in Hrun. inversion Hrun; subst. exists [], []. cbn.
    repeat split; try reflexivity; try lia. intros H. congruence.
  - rewrite run_cons in Hrun.
    destruct (step a g q) as [[o g1] q1] eqn:Hs.
    destruct (run script g1 q1) as [[tr1 g2] q2] eqn:Hr.
    inversion Hrun; subst; clear Hrun.
    destruct (step_issued a g q Hat _ _ _ Hs) as (_ & _ & Hat1 & _).
    destruct (step_inbox a g q Hat _ _ _ Hs) as (_ & Ho).
    destruct (step_handle a g q _ _ _ Hs) as (_ & _ & _ & _ & _ & _ & _ & Htaken).
    destruct o as [m|e|].
    + destruct Ho as (it & rest & Hin & Hm & Hin1).
      destruct (IH g1 q1 Hat1 _ _ _ Hr) as (its & fin & Hq1 & Hmsgs & Hlen & Hfin).
      exists (it :: its), fin. rewrite yielded_step. cbn [map app].
      rewrite Hm, Hmsgs, Hin, <- Hin1, Hq1.
      repeat split; try assumption; try reflexivity.
    + pose proof (finished_run script g1 q1 Ho) as (Hg & Hq & Hy).
      rewrite Hr in Hg, Hq, Hy.
      unfold generator_of, handle_of, trace_of in *. cbn [fst snd] in *. subst.
      destruct Htaken as (taken & Ht & Hl).
      exists [], taken. rewrite yielded_step, Hy. cbn.
      repeat split; try assumption; intros _; assumption.
    + pose proof (finished_run script g1 q1 Ho) as (Hg & Hq & Hy).
      rewrite Hr in Hg, Hq, Hy.
      unfold generator_of, handle_of, trace_of in *. cbn [fst snd] in *. subst.
      destruct Htaken as (taken & Ht & Hl).
      exists [], taken. rewrite yielded_step, Hy. cbn.
      repeat split; try assumption; intros _; assumption.
Qed.

(** X15.  The generator drops no delivery: in every run, what it has taken
    off the stream is exactly the deliveries of the messages it yielded, in
    order, followed by at most one further reply, and such a further reply
    is taken only by the call that ends the generator (the item without a
    method frame, or the library's error). *)
Theorem generator_takes_only_what_it_yields :
  forall (g : generator) (q : RabbitMQSub) (script : list action),
    gen_frame g = Created ->
    let r := run script g q in
    exists its fin,
      inbox_of q = map Gives its ++ fin ++ inbox_of (handle_of r)
      /\ map message_of its = map Some (yielded (trace_of r))
      /\ (List.length fin <= 1)%nat
      /\ (fin <> [] -> gen_frame (generator_of r) = Finished).
Proof.
  intros g q script Hf r.
  exact (run_takes_what_it_yields script g q (attached_Created g q Hf) _ _ _
           (run_eta script g q)).
Qed.

Lemma generator_takes_only_what_it_yields_witness :
  let g := message_generator 1 None None in
  let q := sub_of three_then_timeout in
  let r := run [next; next] g q in
  gen_frame g = Created /\
  yielded (trace_of r) = [mkMessage 0 []; mkMessage 10 []] /\
  inbox_of (handle_of r) = [deliver (mkMethod 20) []; Gives no_item] /\
  exists its fin,
    inbox_of q = map Gives its ++ fin ++ inbox_of (handle_of r)
    /\ map message_of its = map Some (yielded (trace_of r))
    /\ (List.length fin <= 1)%nat.
Proof.
  intros g q r.
  destruct (generator_takes_only_what_it_yields g q [next; next] eq_refl)
    as (its & fin & H1 & H2 & H3 & _).
  split; [reflexivity|]. split; [reflexivity|]. split; [reflexivity|].
  exists its, fin. split; [exact H1|]. split; [exact H2|exact H3].
Defined.

(** ** Breaking out of the loop *)

Lemma gen_close_AtYield (g : generator) (q : RabbitMQSub) (ch : Channel)
    (m : Method) :
  gen_frame g = AtYield m -> channel q = Some ch ->
  gen_close g q =
  (Return tt, set_frame g Finished,
   set_channel q (Some (with_calls ch [Cancel] (inbox ch)))).
Proof.
  intros Hf Hc. unfold gen_close, finally_cancel, on_channel. rewrite Hf, Hc.
  reflexivity.
Qed.

Lemma answered_returns_until (ds : list delivery) (dk : delivery)
    (a : action) (o : outcome) :
  returns_normally a = false ->
  forall t0,
    answered returns_normally t0 (returned (ds ++ [dk]) ++ [(a, o)]) =
    tag_list t0 ++ map tag_at ds.
Proof.
  intros Ha. induction ds as [|d ds IH]; intros t0.
  - cbn. rewrite Ha. destruct t0; reflexivity.
  - change (returned ((d :: ds) ++ [dk]) ++ [(a, o)])
      with ((next, Yielded (message_at d)) :: (returned (ds ++ [dk]) ++ [(a, o)])).
    rewrite answered_cons, IH. cbn. destruct t0; reflexivity.
Qed.

Lemma answered_raises_none (ds : list delivery) (a : action) (o : outcome) :
  raises_exception a = false ->
  forall t0, answered raises_exception t0 (returned ds ++ [(a, o)]) = [].
Proof.
  intros Ha. induction ds as [|d ds IH]; intros t0.
  - cbn. rewrite Ha. destruct t0; reflexivity.
  - change (returned (d :: ds) ++ [(a, o)])
      with ((next, Yielded (message_at d)) :: (returned ds ++ [(a, o)])).
    rewrite answered_cons, IH. cbn. destruct t0; reflexivity.
Qed.

Lemma yielded_returned (ds : list delivery) (tr : list (action * outcome)) :
  yielded (returned ds ++ tr) = map message_at ds ++ yielded tr.
Proof.
  induction ds as [|d ds IH]; [reflexivity|].
  change (returned (d :: ds) ++ tr)
    with ((next, Yielded (message_at d)) :: (returned ds ++ tr)).
  rewrite yielded_step, IH. reflexivity.
Qed.

(** C1 (the code at the failing input).  With [auto_ack] on, a caller that
    is handed the k messages [ds ++ [dk]], returns from each of the first
    k-1 and then leaves the loop at the k-th without raising ([break], which
    closes the generator) ends the generator without any exception: k
    messages were yielded, but only the k-1 messages of [ds] are acked.  The
    last message, [dk], is neither acked nor nacked; the only call made for
    it is [cancel]. *)
Theorem break_leaves_last_message_unacked :
  forall (g : generator) (q : RabbitMQSub) (ds : list delivery) (dk : delivery)
         (rest : list reply),
    gen_frame g = Created ->
    auto_ack g = true ->
    channel q <> None ->
    inbox_of q = deliveries_of (ds ++ [dk]) ++ rest ->
    let k := List.length (ds ++ [dk]) in
    let r := run (repeat next k ++ [close_gen]) g q in
    trace_of r = returned (ds ++ [dk]) ++ [(close_gen, Closed)]
    /\ gen_frame (generator_of r) = Finished
    /\ List.length (yielded (trace_of r)) = k
    /\ acks (calls_of (handle_of r)) = acks (calls_of q) ++ map tag_at ds
    /\ List.length (acks (calls_of (handle_of r))) =
       (List.length (acks (calls_of q)) + (k - 1))%nat
    /\ nacks (calls_of (handle_of r)) = nacks (calls_of q)
    /\ cancels (calls_of (handle_of r)) = S (cancels (calls_of q)).
Proof.
  intros g q ds dk rest Hf Hack Hc Hin k r.
  assert (Hnf : gen_frame g <> Finished) by (rewrite Hf; discriminate).
  pose proof (run_nexts (ds ++ [dk]) g q rest Hc Hnf Hin) as Hn.
  cbv zeta in Hn. fold k in Hn.
  pose proof (attached_Created g q Hf) as Hat.
  assert (Hk : k = S (List.length ds)).
  { unfold k. rewrite length_app. cbn. lia. }
  assert (Hrun : run (repeat next k ++ [close_gen]) g q = r) by reflexivity.
  rewrite run_app in Hrun.
  destruct (run (repeat next k) g q) as [[tr1 g1] q1] eqn:Hr1.
  unfold trace_of, handle_of, generator_of in Hn. cbn [fst snd] in Hn.
  destruct Hn as (Htr1 & Hin1 & Hc1 & Hf1 & Hsame).
  rewrite map_app in Hf1. cbn [map] in Hf1. rewrite last_last in Hf1.
  destruct (channel q1) as [ch1|] eqn:Hch1; [|congruence].
  assert (Hclose : run [close_gen] g1 q1 =
            ([(close_gen, Closed)], set_frame g1 Finished,
             set_channel q1 (Some (with_calls ch1 [Cancel] (inbox ch1))))).
  { cbn. rewrite (gen_close_AtYield g1 q1 ch1 (fst dk) Hf1 Hch1). reflexivity. }
  rewrite Hclose in Hrun.
  assert (Htrace : trace_of r = returned (ds ++ [dk]) ++ [(close_gen, Closed)]).
  { rewrite <- Hrun, <- Htr1. reflexivity. }
  assert (Hfin : gen_frame (generator_of r) = Finished).
  { rewrite <- Hrun. reflexivity. }
  pose proof (run_eta (repeat next k ++ [close_gen]) g q) as Heta. fold r in Heta.
  pose proof (run_acks _ g q Hat Hack _ _ _ Heta) as Hacks.
  pose proof (run_nacks _ g q Hat _ _ _ Heta) as Hnacks.
  rewrite Htrace, (inflight_Created g Hf) in Hacks, Hnacks.
  rewrite (answered_returns_until ds dk close_gen Closed eq_refl) in Hacks.
  rewrite (answered_raises_none (ds ++ [dk]) close_gen Closed eq_refl) in Hnacks.
  cbn [tag_list app] in Hacks. rewrite app_nil_r in Hnacks.
  pose proof (run_balance _ g q Hat _ _ _ Heta) as Hbal.
  assert (Hcons : consumes (calls_of (handle_of r)) = S (consumes (calls_of q))).
  { apply (run_consumes_once (repeat next (List.length ds) ++ [close_gen]) g q
             Hf Hc (trace_of r) (generator_of r)).
    rewrite <- Heta. unfold r. rewrite Hk. reflexivity. }
  unfold suspended in Hbal. rewrite Hf, Hfin in Hbal.
  repeat match goal with |- _ /\ _ => split end; try assumption.
  - rewrite Htrace, yielded_returned. cbn. rewrite app_nil_r, length_map.
    reflexivity.
  - rewrite Hacks, length_app, length_map, Hk. lia.
  - lia.
Qed.

(** The loop of [test_message_generator_1]: the first message is taken and
    the loop is left with [break]. *)
Lemma break_leaves_last_message_unacked_witness :
  let g := message_generator 1 None None in
  let q := sub_of three_then_timeout in
  let r := run [next; close_gen] g q in
  (gen_frame g = Created /\ auto_ack g = true /\ channel q <> None) /\
  map snd (trace_of r) = [Yielded (mkMessage 0 []); Closed] /\
  gen_frame (generator_of r) = Finished /\
  acks (calls_of (handle_of r)) = [] /\
  nacks (calls_of (handle_of r)) = [] /\
  calls_of (handle_of r) = [BasicQos 1 true; Consume "queue" 1; Cancel].
Proof.
  intros g q r.
  assert (Hc : channel q <> None) by (cbn; discriminate).
  destruct (break_leaves_last_message_unacked g q [] (mkMethod 0, [])
              [deliver (mkMethod 10) []; deliver (mkMethod 20) []; Gives no_item]
              eq_refl eq_refl Hc eq_refl)
    as (_ & Hfin & _ & Ha & _ & Hn & _).
  split; [repeat split; exact Hc|].
  split; [reflexivity|]. split; [exact Hfin|].
  split; [exact Ha|]. split; [exact Hn|reflexivity].
Defined.

(** ** Iterating on after a suppressed error *)

Lemma one_round (g : generator) (q : RabbitMQSub) (ch : Channel) (m : Method)
    (e : exn) (p : round) (rest : list reply) :
  gen_frame g = AtYield m ->
  auto_ack g = true ->
  propagate_error g = false ->
  channel q = Some ch ->
  inbox ch = deliveries_of [fst p; snd p] ++ rest ->
  isinstance_Exception e = true ->
  run [throw e; next] g q =
  ([(throw e, Yielded (message_at (fst p)));
    (next, Yielded (message_at (snd p)))],
   set_frame g (AtYield (fst (snd p))),
   set_channel q
     (Some (with_calls ch [BasicNack (delivery_tag m); BasicAck (tag_at (fst p))]
              rest))).
Proof.
  intros Hf Hack Hprop Hc Hin He. destruct p as [d1 d2]. cbn [fst snd] in *.
  cbn [run step].
  rewrite (gen_throw_suppressed g q ch m e Hf Hc He Hprop).
  rewrite (next_item_delivery g _ (basic_nack (delivery_tag m) ch)
             {| method_frame := Some (fst d1); header_frame := None;
                body := snd d1 |} (fst d1) (deliveries_of [d2] ++ rest));
    try reflexivity; try (cbn; rewrite Hin; reflexivity).
  cbn [observe].
  rewrite (gen_next_AtYield (set_frame g (AtYield (fst d1))) _
             (with_calls (basic_nack (delivery_tag m) ch) []
                (deliveries_of [d2] ++ rest)) (fst d1));
    try reflexivity.
  cbn [auto_ack set_frame]. rewrite Hack.
  rewrite (next_item_delivery _ _
             (basic_ack (delivery_tag (fst d1))
                (with_calls (basic_nack (delivery_tag m) ch) []
                   (deliveries_of [d2] ++ rest)))
             {| method_frame := Some (fst d2); header_frame := None;
                body := snd d2 |} (fst d2) rest);
    try reflexivity.
  unfold message_at, tag_at, with_calls, basic_ack, basic_nack, record,
    set_channel, set_frame.
  cbn. rewrite !app_nil_r, <- !app_assoc. reflexivity.
Qed.

Lemma run_rounds (e : exn) (ps : list round) :
  isinstance_Exception e = true ->
  forall g q ch m rest,
    gen_frame g = AtYield m ->
    auto_ack g = true ->
    propagate_error g = false ->
    channel q = Some ch ->
    inbox ch = deliveries_of (rounds_stream ps) ++ rest ->
    let r := run (rounds_script e ps) g q in
    trace_of r = rounds_trace e ps
    /\ calls_of (handle_of r) = calls ch ++ rounds_calls (delivery_tag m) ps
    /\ inbox_of (handle_of r) = rest.
Proof.
  intros He. induction ps as [|p ps IH]; intros g q ch m rest Hf Hack Hprop Hc Hin r.
  - subst r. cbn. unfold calls_of, inbox_of. rewrite Hc, app_nil_r.
    repeat split. exact Hin.
  - subst r.
    change (rounds_script e (p :: ps)) with ([throw e; next] ++ rounds_script e ps).
    rewrite run_app.
    assert (Hin1 : inbox ch =
                   deliveries_of [fst p; snd p]
                     ++ (deliveries_of (rounds_stream ps) ++ rest)).
    { rewrite Hin. unfold deliveries_of, rounds_stream. cbn [flat_map].
      rewrite map_app, <- app_assoc. reflexivity. }
    rewrite (one_round g q ch m e p _ Hf Hack Hprop Hc Hin1 He).
    pose proof (IH (set_frame g (AtYield (fst (snd p))))
                  (set_channel q
                     (Some (with_calls ch
                              [BasicNack (delivery_tag m); BasicAck (tag_at (fst p))]
                              (deliveries_of (rounds_stream ps) ++ rest))))
                  _ (fst (snd p)) rest eq_refl Hack Hprop eq_refl eq_refl) as IH1.
    cbv zeta in IH1.
    destruct (run (rounds_script e ps) _ _) as [[tr g2] q2].
    unfold trace_of, handle_of in *. cbn [fst snd] in *.
    destruct IH1 as (Htr & Hcalls & Hinb).
    repeat split.
    + rewrite Htr. reflexivity.
    + rewrite Hcalls. unfold with_calls. cbn [calls rounds_calls].
      rewrite <- app_assoc. reflexivity.
    + exact Hinb.
Qed.

Lemma acks_rounds_calls (ps : list round) :
  forall t, acks (rounds_calls t ps) = map (fun p => tag_at (fst p)) ps.
Proof.
  induction ps as [|p ps IH]; intros t; [reflexivity|].
  cbn. rewrite <- (IH (tag_at (snd p))). reflexivity.
Qed.

Lemma nacks_rounds_calls (ps : list round) :
  forall t, nacks (rounds_calls t ps) = raised_at t ps.
Proof.
  induction ps as [|p ps IH]; intros t; [reflexivity|].
  cbn. rewrite <- (IH (tag_at (snd p))). reflexivity.
Qed.

Lemma seen_by_loop_next (m : Message) (tr : list (action * outcome)) :
  seen_by_loop ((next, Yielded m) :: tr) = m :: seen_by_loop tr.
Proof. reflexivity. Qed.

Lemma seen_by_loop_rounds (e : exn) (ps : list round) :
  seen_by_loop (rounds_trace e ps) = map (fun p => message_at (snd p)) ps.
Proof.
  induction ps as [|p ps IH]; [reflexivity|].
  change (seen_by_loop (rounds_trace e (p :: ps)))
    with (message_at (snd p) :: seen_by_loop (rounds_trace e ps)).
  rewrite IH. reflexivity.
Qed.

(** C3 (the code at the failing input).  With [propagate_error] off and
    [auto_ack] on, take a caller that iterates over the generator and
    raises at every message its loop is handed: it is handed a first
    message [d0], and in each round it throws at the message it holds and
    its loop asks for the next.  Each round takes two deliveries [(a, b)]
    off the stream: [a] becomes the value of the [throw] call and the
    following [next] acks it unseen, and only [b] reaches the loop.  So the
    loop is handed [d0] and the second delivery of every round; the first
    delivery of every round, the message that follows a nacked one, is
    acked without having been handed to the loop; the nacks are those of
    the messages the caller raised at. *)
Theorem suppressed_error_skips_the_following_message :
  forall (g : generator) (q : RabbitMQSub) (ch : Channel) (d0 : delivery)
         (ps : list round) (rest : list reply) (e : exn),
    gen_frame g = Created ->
    auto_ack g = true ->
    propagate_error g = false ->
    channel q = Some ch ->
    inbox ch = deliveries_of (d0 :: rounds_stream ps) ++ rest ->
    isinstance_Exception e = true ->
    let r := run (next :: rounds_script e ps) g q in
    trace_of r = (next, Yielded (message_at d0)) :: rounds_trace e ps
    /\ seen_by_loop (trace_of r) =
       message_at d0 :: map (fun p => message_at (snd p)) ps
    /\ acks (calls_of (handle_of r)) =
       acks (calls ch) ++ map (fun p => tag_at (fst p)) ps
    /\ nacks (calls_of (handle_of r)) =
       nacks (calls ch) ++ raised_at (tag_at d0) ps
    /\ inbox_of (handle_of r) = rest.
Proof.
  intros g q ch d0 ps rest e Hf Hack Hprop Hc Hin He r. subst r.
  rewrite run_cons. unfold step.
  rewrite (gen_next_Created g q ch Hf Hc).
  rewrite (next_item_delivery g _ (consume (queue q) (timeout g) ch)
             {| method_frame := Some (fst d0); header_frame := None;
                body := snd d0 |} (fst d0)
             (deliveries_of (rounds_stream ps) ++ rest));
    try reflexivity; try (cbn; rewrite Hin; reflexivity).
  cbn [observe].
  pose proof (run_rounds e ps He (set_frame g (AtYield (fst d0)))
                (set_channel
                   (set_channel q (Some (consume (queue q) (timeout g) ch)))
                   (Some (with_calls (consume (queue q) (timeout g) ch) []
                            (deliveries_of (rounds_stream ps) ++ rest))))
                _ (fst d0) rest eq_refl Hack Hprop eq_refl eq_refl) as Hr.
  cbv zeta in Hr.
  destruct (run (rounds_script e ps) _ _) as [[tr g2] q2].
  unfold trace_of, handle_of in *. cbn [fst snd] in *.
  destruct Hr as (Htr & Hcalls & Hinb).
  rewrite Htr.
  repeat match goal with |- _ /\ _ => split end.
  - reflexivity.
  - rewrite seen_by_loop_next, seen_by_loop_rounds. reflexivity.
  - rewrite Hcalls. unfold with_calls, consume, record. cbn [calls].
    rewrite !acks_app, acks_rounds_calls. cbn. rewrite !app_nil_r. reflexivity.
  - rewrite Hcalls. unfold with_calls, consume, record. cbn [calls].
    rewrite !nacks_app, nacks_rounds_calls. cbn. rewrite !app_nil_r. reflexivity.
  - exact Hinb.
Qed.

(** The loop of [test_message_generator_suppress_error] on a stream of
    five messages, the caller raising at each message its loop is handed:
    the loop is handed 0, 20 and 40; 10 and 30 are acked unseen. *)
Lemma suppressed_error_skips_the_following_message_witness :
  let g := message_generator 1 None (Some false) in
  let q := sub_of five_then_timeout in
  let e := OtherException "Exception" in
  let r := run [next; throw e; next; throw e; next] g q in
  (gen_frame g = Created /\ auto_ack g = true /\ propagate_error g = false /\
   isinstance_Exception e = true) /\
  map msg_id (seen_by_loop (trace_of r)) = [0; 20; 40] /\
  acks (calls_of (handle_of r)) = [10; 30] /\
  nacks (calls_of (handle_of r)) = [0; 20].
Proof.
  intros g q e r.
  destruct (suppressed_error_skips_the_following_message g q
              {| calls := [BasicQos 1 true];
                 inbox := deliveries five_then_timeout;
                 publish_error := None |}
              (mkMethod 0, [])
              [((mkMethod 10, []), (mkMethod 20, []));
               ((mkMethod 30, []), (mkMethod 40, []))]
              [Gives no_item] e eq_refl eq_refl eq_refl eq_refl eq_refl eq_refl)
    as (_ & Hseen & Ha & Hn & _).
  split; [repeat split|].
  split; [exact (f_equal (map msg_id) Hseen)|]. split; [exact Ha|exact Hn].
Defined.
